(** * Relationship Graph Engine of the text2sql skill

    A shallow embedding of [scripts/relationship_analyzer.py]: the
    foreign-key list, the junction-table classifier, the relationship graph,
    the breadth-first path finder and the two JOIN synthesizers, followed by
    the properties of the specification that concern them. *)

From stdpp Require Import gmap strings list fin_maps pretty sorting.

#[local] Set Warnings "-clear-no-such-hyp".


(** ** Python values the analyzer passes around *)

(** A row returned by [get_foreign_keys]. *)
Record ForeignKey := mkFK {
  fk_constraint_name : string;
  fk_from_table : string;
  fk_from_column : string;
  fk_to_table : string;
  fk_to_column : string;
  fk_on_update : string;
  fk_on_delete : string
}.

(** An entry appended to [many_to_many]. *)
Record JunctionCandidate := mkJunction {
  junction_table : string;
  table1 : string;
  table1_column : string;
  table2 : string;
  table2_column : string;
  junction_column1 : string;
  junction_column2 : string
}.

(** An adjacency entry.  The forward dict has no ['reverse'] key at all
    ([None] here); the reverse dict carries ['reverse': True]. *)
Record Edge := mkEdge {
  e_to : string;
  e_from_column : string;
  e_to_column : string;
  e_constraint : string;
  e_reverse : option bool
}.

(** A join step built by the path finder. *)
Record JoinStep := mkStep {
  s_from : string;
  s_to : string;
  s_from_column : string;
  s_to_column : string;
  s_constraint : string;
  s_reverse : bool
}.

Abbreviation JoinPath := (list JoinStep).

Record RelationshipGraph := mkGraph {
  nodes : list string;
  adjacency : gmap string (list Edge);
  foreign_keys : list ForeignKey;
  many_to_many : list JunctionCandidate
}.

(** What the database connection answers for one schema: the rows of the
    foreign-key query, in the order the query returns them, and the
    [COUNT( * )] of [information_schema.columns] for a table name. *)
Record Catalog := mkCatalog {
  cat_foreign_keys : list ForeignKey;
  cat_column_count : string → Z
}.

#[global] Instance ForeignKey_eq_dec : EqDecision ForeignKey.
Proof. solve_decision. Defined.
#[global] Instance Edge_eq_dec : EqDecision Edge.
Proof. solve_decision. Defined.
#[global] Instance JoinStep_eq_dec : EqDecision JoinStep.
Proof. solve_decision. Defined.

(** ** Exceptions and results *)

Inductive exn := KeyError (key : string).

(** The result of running a piece of the script: it returns, it raises, or
    the bounded loop of the embedding ran out of steps (shown below never to
    happen). *)
Inductive outcome (A : Type) :=
  | Done (a : A)
  | Raised (e : exn)
  | OutOfFuel.
Arguments Done {A} a.
Arguments Raised {A} e.
Arguments OutOfFuel {A}.

#[global] Instance outcome_ret : MRet outcome := @Done.
#[global] Instance outcome_bind : MBind outcome := λ A B f m,
  match m with
  | Done a => f a
  | Raised e => Raised e
  | OutOfFuel => OutOfFuel
  end.

(** ** Text helpers *)

Definition nl : string := String (Ascii.ascii_of_nat 10) "".

(** ['sep'.join(parts)] *)
Definition str_join (sep : string) (parts : list string) : string :=
  String.concat sep parts.

(** [s.split(sep)[0]] for a non-empty separator: the text before the first
    occurrence of [sep], or all of [s]. *)
Fixpoint split_head (sep s : string) : string :=
  if String.prefix sep s then ""
  else match s with
       | EmptyString => ""
       | String c s' => String c (split_head sep s')
       end.

(** ** get_foreign_keys *)

Definition get_foreign_keys (conn : Catalog) : list ForeignKey :=
  cat_foreign_keys conn.

(** ** detect_many_to_many *)

(** [d[k].append(v)] on a [defaultdict(list)] whose [items()] are read back
    in insertion order. *)
Fixpoint dd_append {V : Type} (k : string) (v : V)
    (d : list (string * list V)) : list (string * list V) :=
  match d with
  | [] => [(k, [v])]
  | (k', vs) :: d' =>
      if decide (k' = k) then (k', vs ++ [v]) :: d'
      else (k', vs) :: dd_append k v d'
  end.

Definition group_by_table (fks : list ForeignKey) :
    list (string * list ForeignKey) :=
  foldl (λ d fk, dd_append (fk_from_table fk) fk d) [] fks.

(** The body of the loop over [fk_by_table.items()]: what one table
    contributes to [many_to_many]. *)
Definition junction_of (conn : Catalog)
    (item : string * list ForeignKey) : list JunctionCandidate :=
  let (table_name, fks) := item in
  match fks with
  | [fk0; fk1] =>
      let column_count := cat_column_count conn table_name in
      if bool_decide (column_count ≤ 4)%Z then
        [ {| junction_table := table_name;
             table1 := fk_to_table fk0;
             table1_column := fk_to_column fk0;
             table2 := fk_to_table fk1;
             table2_column := fk_to_column fk1;
             junction_column1 := fk_from_column fk0;
             junction_column2 := fk_from_column fk1 |} ]
      else []
  | _ => []
  end.

Definition detect_many_to_many (conn : Catalog) : list JunctionCandidate :=
  let foreign_keys := get_foreign_keys conn in
  let fk_by_table := group_by_table foreign_keys in
  fk_by_table ≫= junction_of conn.

(** ** build_relationship_graph *)

(** [adjacency[k].append(e)] on a [defaultdict(list)] used as a map. *)
Definition adj_append (k : string) (e : Edge)
    (adjacency : gmap string (list Edge)) : gmap string (list Edge) :=
  <[k := default [] (adjacency !! k) ++ [e]]> adjacency.

Definition forward_edge (fk : ForeignKey) : Edge :=
  {| e_to := fk_to_table fk;
     e_from_column := fk_from_column fk;
     e_to_column := fk_to_column fk;
     e_constraint := fk_constraint_name fk;
     e_reverse := None |}.

Definition reverse_edge (fk : ForeignKey) : Edge :=
  {| e_to := fk_from_table fk;
     e_from_column := fk_to_column fk;
     e_to_column := fk_from_column fk;
     e_constraint := fk_constraint_name fk;
     e_reverse := Some true |}.

(** One iteration of [for fk in foreign_keys] on [(adjacency, nodes)]. *)
Definition add_foreign_key
    (st : gmap string (list Edge) * gset string) (fk : ForeignKey) :
    gmap string (list Edge) * gset string :=
  let (adjacency, nodes) := st in
  let from_table := fk_from_table fk in
  let to_table := fk_to_table fk in
  let nodes := {[to_table]} ∪ ({[from_table]} ∪ nodes) in
  let adjacency := adj_append from_table (forward_edge fk) adjacency in
  let adjacency := adj_append to_table (reverse_edge fk) adjacency in
  (adjacency, nodes).

(** The adjacency map after one iteration, on its own. *)
Definition step_adj (fk : ForeignKey) (adjacency : gmap string (list Edge)) :
    gmap string (list Edge) :=
  adj_append (fk_to_table fk) (reverse_edge fk)
    (adj_append (fk_from_table fk) (forward_edge fk) adjacency).

Definition build_adjacency (fks : list ForeignKey) :
    gmap string (list Edge) * gset string :=
  foldl add_foreign_key (∅, ∅) fks.

(** [sorted(list(nodes))]: Python orders [str] by code point, which on
    UTF-8 text is the byte order of [String.leb]. *)
Definition str_le (a b : string) : Prop := String.leb a b = true.

#[global] Instance str_le_dec : RelDecision str_le.
Proof. intros a b. unfold str_le. apply _. Defined.

Definition sorted_nodes (nodes : gset string) : list string :=
  merge_sort str_le (elements nodes).

Definition build_relationship_graph (conn : Catalog) : RelationshipGraph :=
  let foreign_keys := get_foreign_keys conn in
  let many_to_many := detect_many_to_many conn in
  let (adjacency, nodes) := build_adjacency foreign_keys in
  {| nodes := sorted_nodes nodes;
     adjacency := adjacency;
     foreign_keys := foreign_keys;
     many_to_many := many_to_many |}.

(** ** find_path_between_tables *)

Definition mk_step (current_table : string) (edge : Edge) : JoinStep :=
  {| s_from := current_table;
     s_to := e_to edge;
     s_from_column := e_from_column edge;
     s_to_column := e_to_column edge;
     s_constraint := e_constraint edge;
     s_reverse := default false (e_reverse edge) |}.

Abbreviation Queue := (list (string * JoinPath)).

(** The inner [for edge in graph['adjacency'][current_table]] loop: it
    either returns the path that reaches [end_table], or falls through with
    the grown [visited] set and queue. *)
Fixpoint scan_edges (current_table end_table : string) (path : JoinPath)
    (edges : list Edge) (visited : gset string) (queue : Queue) :
    JoinPath + (gset string * Queue) :=
  match edges with
  | [] => inr (visited, queue)
  | edge :: edges' =>
      let next_table := e_to edge in
      if decide (next_table ∈ visited) then
        scan_edges current_table end_table path edges' visited queue
      else
        let new_path := path ++ [mk_step current_table edge] in
        if decide (next_table = end_table) then inl new_path
        else scan_edges current_table end_table path edges'
               ({[next_table]} ∪ visited) (queue ++ [(next_table, new_path)])
  end.

(** The [while queue] loop, one [popleft] per unit of fuel. *)
Fixpoint bfs (fuel : nat) (adjacency : gmap string (list Edge))
    (end_table : string) (queue : Queue) (visited : gset string) :
    outcome (option JoinPath) :=
  match fuel with
  | O => OutOfFuel
  | S fuel' =>
      match queue with
      | [] => Done None
      | (current_table, path) :: queue' =>
          match adjacency !! current_table with
          | None => Raised (KeyError current_table)
          | Some edges =>
              match scan_edges current_table end_table path edges
                      visited queue' with
              | inl new_path => Done (Some new_path)
              | inr (visited', queue'') =>
                  bfs fuel' adjacency end_table queue'' visited'
              end
          end
      end
  end.

(** Every destination named by some adjacency list, with repetitions. *)
Definition edge_targets (adjacency : gmap string (list Edge)) : list string :=
  map_to_list adjacency ≫= (λ item, e_to <$> item.2).

(** Steps granted to the loop: every [popleft] but the last follows an
    [append] of a table that was not yet visited. *)
Definition bfs_fuel (adjacency : gmap string (list Edge)) : nat :=
  S (S (length (edge_targets adjacency))).

Definition find_path_between_tables (graph : RelationshipGraph)
    (start_table end_table : string) : outcome (option JoinPath) :=
  if bool_decide (adjacency graph !! start_table = None
                  ∨ adjacency graph !! end_table = None)
  then Done None
  else if decide (start_table = end_table) then Done (Some [])
  else bfs (bfs_fuel (adjacency graph)) (adjacency graph) end_table
         [(start_table, [])] {[start_table]}.

(** ** suggest_join_pattern *)

Record JoinSuggestion := mkSuggestion {
  sj_success : bool;
  sj_path : option JoinPath;
  sj_sql : option string;
  sj_explanation : string
}.

(** [f"{join_type} {step['to']} ON {on_clause}"] *)
Definition join_line (step : JoinStep) : string :=
  let join_type := "JOIN" in
  let on_clause :=
    s_from step +:+ "." +:+ s_from_column step +:+ " = " +:+
    s_to step +:+ "." +:+ s_to_column step in
  join_type +:+ " " +:+ s_to step +:+ " ON " +:+ on_clause.

Definition arrow : string := " → ".

(** The explanation of a found path; [step0] is [path[0]]. *)
Definition path_explanation (table1 table2 : string) (step0 : JoinStep)
    (path : JoinPath) : string :=
  if decide (length path = 1) then
    "Direct relationship: " +:+ table1 +:+ "." +:+ s_from_column step0 +:+
    arrow +:+ table2 +:+ "." +:+ s_to_column step0
  else
    let steps := (λ step, s_from step +:+ arrow +:+ s_to step) <$> path in
    "Path through " +:+ pretty (length path) +:+ " tables: " +:+
    str_join arrow ((split_head arrow <$> steps) ++ [s_to (List.last path step0)]).

Definition suggest_join_pattern (conn : Catalog) (table1 table2 : string) :
    outcome JoinSuggestion :=
  let graph := build_relationship_graph conn in
  path ← find_path_between_tables graph table1 table2;
  match path with
  | Some ((step0 :: _) as path) =>
      let sql_parts := ("FROM " +:+ s_from step0) :: (join_line <$> path) in
      let sql := str_join nl sql_parts in
      Done {| sj_success := true;
              sj_path := Some path;
              sj_sql := Some sql;
              sj_explanation := path_explanation table1 table2 step0 path |}
  | _ =>
      (* [if not path]: [None] and the empty list alike *)
      Done {| sj_success := false;
              sj_path := None;
              sj_sql := None;
              sj_explanation :=
                "No foreign key relationship found between '" +:+ table1 +:+
                "' and '" +:+ table2 +:+ "'" |}
  end.

(** ** generate_join_query *)

Record JoinQuery := mkQuery {
  gq_success : bool;
  gq_sql : option string;
  gq_explanation : string;
  gq_paths : JoinPath
}.

(** [joined_tables] is a Python [set] of [str]: the order in which a [for]
    loop reads it depends on the hashes of its members, so the analyzer is
    embedded over any set whose iteration lists its members. *)
Class TableSet := {
  tset : Type;
  tset_singleton : string → tset;
  tset_add : string → tset → tset;
  tset_iter : tset → list string;
  tset_iter_singleton : ∀ x, tset_iter (tset_singleton x) = [x];
  tset_iter_add : ∀ x s y,
    y ∈ tset_iter (tset_add x s) ↔ y = x ∨ y ∈ tset_iter s
}.

(** A set that is read back in insertion order. *)
Definition ordered_add (x : string) (s : list string) : list string :=
  if decide (x ∈ s) then s else s ++ [x].

#[global, refine] Instance insertion_ordered_set : TableSet := {|
  tset := list string;
  tset_singleton x := [x];
  tset_add := ordered_add;
  tset_iter s := s
|}.
Proof.
  - reflexivity.
  - intros x s y. unfold ordered_add. case_decide.
    + split; [auto|]. intros [->|]; done.
    + rewrite elem_of_app, list_elem_of_singleton. tauto.
Defined.

(** [if not path] *)
Definition falsy (path : option JoinPath) : bool :=
  match path with
  | Some (_ :: _) => false
  | _ => true
  end.

Definition join_key (step : JoinStep) : string * string * string * string :=
  (s_from step, s_to step, s_from_column step, s_to_column step).

(** One iteration of the loop that removes duplicate joins, on
    [(unique_joins, seen_joins)]. *)
Definition keep_first
    (st : JoinPath * gset (string * string * string * string))
    (step : JoinStep) : JoinPath * gset (string * string * string * string) :=
  let (unique_joins, seen_joins) := st in
  if decide (join_key step ∈ seen_joins) then (unique_joins, seen_joins)
  else (unique_joins ++ [step], {[join_key step]} ∪ seen_joins).

Definition unique_joins_of (all_paths : JoinPath) : JoinPath :=
  (foldl keep_first ([], ∅) all_paths).1.

Definition select_clause_of (tables : list string) (select_all : bool) :
    string :=
  if select_all then "SELECT *"
  else "SELECT" +:+ nl +:+ "    " +:+
       str_join ("," +:+ nl +:+ "    ") ((λ t, t +:+ ".*") <$> tables).

Section synthesis.
Context `{TableSet}.

(** [for joined_table in joined_tables: path = find(...); if path: break]
    where [path] keeps the value of the last call. *)
Fixpoint first_path (graph : RelationshipGraph) (target_table : string)
    (joined_tables : list string) (path : option JoinPath) :
    outcome (option JoinPath) :=
  match joined_tables with
  | [] => Done path
  | joined_table :: rest =>
      path ← find_path_between_tables graph joined_table target_table;
      if falsy path then first_path graph target_table rest path
      else Done path
  end.

(** [for target_table in tables[1:]]: stops at the first target without a
    path, with that target and the joins gathered so far; otherwise ends
    with the joined set and all the joins. *)
Fixpoint connect_targets (graph : RelationshipGraph)
    (targets : list string) (joined_tables : tset) (all_paths : JoinPath) :
    outcome (string * JoinPath + tset * JoinPath) :=
  match targets with
  | [] => Done (inr (joined_tables, all_paths))
  | target_table :: rest =>
      path ← first_path graph target_table (tset_iter joined_tables) None;
      match path with
      | Some ((_ :: _) as path) =>
          connect_targets graph rest
            (foldl (λ joined step, tset_add (s_to step) joined)
               joined_tables path)
            (all_paths ++ path)
      | _ => Done (inl (target_table, all_paths))
      end
  end.

Definition generate_join_query (conn : Catalog) (tables : list string)
    (select_all : bool) : outcome JoinQuery :=
  match tables with
  | base_table :: ((_ :: _) as targets) =>
      let graph := build_relationship_graph conn in
      r ← connect_targets graph targets (tset_singleton base_table) [];
      match r with
      | inl (target_table, all_paths) =>
          Done {| gq_success := false;
                  gq_sql := None;
                  gq_explanation :=
                    "Cannot find path from " +:+ base_table +:+ " to " +:+
                    target_table;
                  gq_paths := all_paths |}
      | inr (_, all_paths) =>
          let unique_joins := unique_joins_of all_paths in
          let select_clause := select_clause_of tables select_all in
          let sql_parts :=
            select_clause :: ("FROM " +:+ base_table) ::
            (join_line <$> unique_joins) in
          Done {| gq_success := true;
                  gq_sql := Some (str_join nl sql_parts);
                  gq_explanation :=
                    "Generated JOIN connecting " +:+
                    pretty (length tables) +:+ " tables using " +:+
                    pretty (length unique_joins) +:+ " relationships";
                  gq_paths := unique_joins |}
      end
  | _ =>
      Done {| gq_success := false;
              gq_sql := None;
              gq_explanation := "Need at least 2 tables to generate JOIN";
              gq_paths := [] |}
  end.
End synthesis.

(** ** format_relationships_output *)

(** [d[k]] on a [defaultdict(list)]: the list of the key, empty when the
    key was never appended to. *)
Fixpoint dd_get {V : Type} (k : string) (d : list (string * list V)) :
    list V :=
  match d with
  | [] => []
  | (k', vs) :: d' => if decide (k' = k) then vs else dd_get k d'
  end.

(** The bullet of one foreign key. *)
Definition fk_line (fk : ForeignKey) : string :=
  let arrow := "→" in
  "- `" +:+ fk_from_column fk +:+ "` " +:+ arrow +:+ " `" +:+
  fk_to_table fk +:+ "." +:+ fk_to_column fk +:+ "` " +:+
  "(ON DELETE: " +:+ fk_on_delete fk +:+ ", ON UPDATE: " +:+
  fk_on_update fk +:+ ")".

(** The lines of the foreign-key part. *)
Definition fk_lines (foreign_keys : list ForeignKey) : list string :=
  match foreign_keys with
  | [] => ["*No foreign keys found*"; ""]
  | _ =>
      let by_table := group_by_table foreign_keys in
      merge_sort str_le by_table.*1 ≫= (λ table_name,
        (("### " +:+ table_name) :: (fk_line <$> dd_get table_name by_table))
        ++ [""])
  end.

(** The five lines of one many-to-many relationship. *)
Definition m2m_entry (m2m : JunctionCandidate) : list string :=
  [ "### " +:+ table1 m2m +:+ " ↔ " +:+ table2 m2m;
    "- Junction table: `" +:+ junction_table m2m +:+ "`";
    "- " +:+ table1 m2m +:+ "." +:+ table1_column m2m +:+ " ← " +:+
      junction_table m2m +:+ "." +:+ junction_column1 m2m;
    "- " +:+ table2 m2m +:+ "." +:+ table2_column m2m +:+ " ← " +:+
      junction_table m2m +:+ "." +:+ junction_column2 m2m;
    "" ].

Definition m2m_lines (many_to_many : list JunctionCandidate) : list string :=
  match many_to_many with
  | [] => ["*No many-to-many relationships detected*"; ""]
  | _ => many_to_many ≫= m2m_entry
  end.

Section formatting.
(** [json.dumps({'foreign_keys': ..., 'many_to_many': ...}, indent=2)] of
    the standard library. *)
Variable json_dumps : list ForeignKey → list JunctionCandidate → string.

Definition format_relationships_output (foreign_keys : list ForeignKey)
    (many_to_many : list JunctionCandidate) (format_type : string) : string :=
  if decide (format_type = "json") then json_dumps foreign_keys many_to_many
  else
    let lines :=
      ["# Database Relationships"; "";
       "## Foreign Keys (" +:+ pretty (length foreign_keys) +:+ ")"; ""]
      ++ fk_lines foreign_keys
      ++ ["## Many-to-Many Relationships (" +:+
          pretty (length many_to_many) +:+ ")"; ""]
      ++ m2m_lines many_to_many in
    str_join nl lines.
End formatting.

(** ** Notions the properties are stated with *)

(** [walk adjacency u v k]: [k] edges of the adjacency lists lead from [u]
    to [v]. *)
Inductive walk (adjacency : gmap string (list Edge)) :
    string → string → nat → Prop :=
  | walk_here u : walk adjacency u u 0
  | walk_edge u edges edge v k :
      adjacency !! u = Some edges →
      edge ∈ edges →
      walk adjacency (e_to edge) v k →
      walk adjacency u v (S k).

(** [links start path]: the steps of [path] follow one another from
    [start]. *)
Fixpoint links (start : string) (path : JoinPath) : Prop :=
  match path with
  | [] => True
  | step :: rest => s_from step = start ∧ links (s_to step) rest
  end.

(** Where a path that leaves [start] arrives. *)
Definition path_end (start : string) (path : JoinPath) : string :=
  List.last (s_to <$> path) start.

(** Every edge of the adjacency lists leads to a key of the map. *)
Definition adjacency_closed (adjacency : gmap string (list Edge)) : Prop :=
  ∀ k edges edge,
    adjacency !! k = Some edges → edge ∈ edges →
    is_Some (adjacency !! e_to edge).

(** Tables of [targets] not yet visited, with repetitions. *)
Definition unvisited (targets : list string) (visited : gset string) :
    list string :=
  filter (λ v, v ∉ visited) targets.

(** The paths waiting in the queue are well formed: each leads from
    [start] to the table it is queued with, through visited tables, and
    enters no table twice. *)
Definition queue_wf (start : string) (visited : gset string)
    (queue : Queue) : Prop :=
  ∀ t p, (t, p) ∈ queue →
    links start p ∧ path_end start p = t ∧ NoDup (s_to <$> p)
    ∧ ∀ v, v ∈ s_to <$> p → v ∈ visited.

(** The invariant of the [while queue] loop behind the shortest-path
    property.  The queue is [q1 ++ q2], paths of [L] steps before paths of
    [S L] steps; [lev] gives every visited table the length of the path it
    was queued with. *)
Record bfs_inv (adj : gmap string (list Edge)) (start end_table : string)
    (lev : string → nat) (L : nat) (q1 q2 : Queue)
    (visited : gset string) : Prop := {
  inv_start : start ∈ visited;
  inv_start_lev : lev start = 0;
  inv_end : end_table ∉ visited;
  inv_queue : ∀ t p, (t, p) ∈ q1 ++ q2 → t ∈ visited ∧ lev t = length p;
  inv_done : ∀ u edges edge,
    u ∈ visited → u ∉ (q1 ++ q2).*1 →
    adj !! u = Some edges → edge ∈ edges →
    e_to edge ∈ visited ∧ lev (e_to edge) ≤ S (lev u);
  inv_q1 : ∀ t p, (t, p) ∈ q1 → length p = L;
  inv_q2 : ∀ t p, (t, p) ∈ q2 → length p = S L;
  inv_lev : ∀ x, x ∈ visited → lev x ≤ S L
}.

(** The foreign keys a table owns, in list order. *)
Definition owned (t : string) (fks : list ForeignKey) : list ForeignKey :=
  filter (λ fk, fk_from_table fk = t) fks.

(** What a [defaultdict(list)] holds for a key: nothing until something was
    appended. *)
Definition group_of (l : list ForeignKey) : option (list ForeignKey) :=
  match l with [] => None | _ => Some l end.

(** The edges the foreign keys [fks] give table [k], in the order of the
    list: the forward edge of a foreign key that leaves [k], the reverse
    edge of one that arrives at [k] (both for a self-reference). *)
Definition edges_of (k : string) (fks : list ForeignKey) : list Edge :=
  fks ≫= (λ fk,
    (if decide (fk_from_table fk = k) then [forward_edge fk] else []) ++
    (if decide (fk_to_table fk = k) then [reverse_edge fk] else [])).

(** What a [defaultdict(list)] of edges holds for a key. *)
Definition edge_group (l : list Edge) : option (list Edge) :=
  match l with [] => None | _ => Some l end.

(** Every edge can be travelled back. *)
Definition adjacency_symmetric (adjacency : gmap string (list Edge)) : Prop :=
  ∀ u edges edge,
    adjacency !! u = Some edges → edge ∈ edges →
    ∃ edges' edge',
      adjacency !! e_to edge = Some edges' ∧ edge' ∈ edges' ∧ e_to edge' = u.

(** [connected adjacency u v]: some walk leads from [u] to [v]. *)
Definition connected (adjacency : gmap string (list Edge))
    (u v : string) : Prop :=
  ∃ k, walk adjacency u v k.

(** Every step of [path] was built from an edge of the adjacency list of
    the table it leaves. *)
Definition path_in_graph (adjacency : gmap string (list Edge))
    (path : JoinPath) : Prop :=
  ∀ step, step ∈ path →
    ∃ edges edge,
      adjacency !! s_from step = Some edges ∧ edge ∈ edges
      ∧ step = mk_step (s_from step) edge.

(** [introduced base steps x]: table [x] is [base] or is entered by one of
    [steps]. *)
Definition introduced (base : string) (steps : JoinPath) (x : string) : Prop :=
  x = base ∨ x ∈ s_to <$> steps.

(** Every step leaves a table that is [base] or was entered by a step
    before it. *)
Definition join_order (base : string) (path : JoinPath) : Prop :=
  ∀ before step after,
    path = before ++ step :: after → introduced base before (s_from step).

(** ** Example catalogs *)

Definition fk_order_items_orders : ForeignKey :=
  mkFK "order_items_order_id_fkey" "order_items" "order_id" "orders" "id"
       "NO ACTION" "NO ACTION".

Definition fk_orders_customers : ForeignKey :=
  mkFK "orders_customer_id_fkey" "orders" "customer_id" "customers" "id"
       "NO ACTION" "NO ACTION".

Definition shop_catalog : Catalog :=
  mkCatalog [fk_order_items_orders; fk_orders_customers] (λ _, 5%Z).

(** Table [a] refers to [b] and to [c], and [b] refers to [c]: two ways
    from [a] to [c], of one and of two edges. *)
Definition fk_a_b : ForeignKey :=
  mkFK "a_b_id_fkey" "a" "b_id" "b" "id" "NO ACTION" "NO ACTION".
Definition fk_a_c : ForeignKey :=
  mkFK "a_c_id_fkey" "a" "c_id" "c" "id" "NO ACTION" "NO ACTION".
Definition fk_b_c : ForeignKey :=
  mkFK "b_c_id_fkey" "b" "c_id" "c" "id" "NO ACTION" "NO ACTION".

Definition triangle_catalog : Catalog :=
  mkCatalog [fk_a_b; fk_a_c; fk_b_c] (λ _, 3%Z).

(** A junction table [order_products] between [orders] and [products];
    the catalog is given the column count of that table. *)
Definition fk_order_products_orders : ForeignKey :=
  mkFK "order_products_order_id_fkey" "order_products" "order_id" "orders"
       "id" "NO ACTION" "CASCADE".
Definition fk_order_products_products : ForeignKey :=
  mkFK "order_products_product_id_fkey" "order_products" "product_id"
       "products" "id" "NO ACTION" "CASCADE".

Definition bridge_catalog (columns : Z) : Catalog :=
  mkCatalog [fk_order_products_orders; fk_order_products_products]
            (λ _, columns).

(** * Properties *)

(** ** The relationship graph *)

Section build_graph.
Implicit Types (adj : gmap string (list Edge)) (fk : ForeignKey).

Lemma add_foreign_key_adj st fk :
  (add_foreign_key st fk).1 = step_adj fk st.1.
Proof. by destruct st. Qed.

Lemma lookup_adj_append k e adj k' :
  adj_append k e adj !! k' =
    if decide (k = k') then Some (default [] (adj !! k) ++ [e])
    else adj !! k'.
Proof. unfold adj_append. by rewrite lookup_insert. Qed.

Lemma lookup_step_adj fk adj k :
  step_adj fk adj !! k =
    let l1 := if decide (fk_from_table fk = k)
              then Some (default [] (adj !! k) ++ [forward_edge fk])
              else adj !! k in
    if decide (fk_to_table fk = k)
    then Some (default [] l1 ++ [reverse_edge fk])
    else l1.
Proof.
  unfold step_adj. rewrite lookup_adj_append.
  destruct (decide (fk_to_table fk = k)) as [->|?];
    rewrite lookup_adj_append;
    destruct (decide (fk_from_table fk = _)) as [->|?]; done.
Qed.

(** A list that is there only grows. *)
Lemma step_adj_grows fk adj k edges :
  adj !! k = Some edges →
  ∃ more, step_adj fk adj !! k = Some (edges ++ more).
Proof.
  intros Hk. rewrite lookup_step_adj, Hk. simpl.
  destruct (decide (fk_from_table fk = k)), (decide (fk_to_table fk = k));
    simpl; rewrite <-?(assoc_L (++)); eauto.
  exists []. by rewrite app_nil_r.
Qed.

Lemma step_adj_forward fk adj :
  ∃ edges, step_adj fk adj !! fk_from_table fk = Some edges
           ∧ forward_edge fk ∈ edges.
Proof.
  rewrite lookup_step_adj. simpl.
  destruct (decide (fk_from_table fk = fk_from_table fk)); [|done].
  case_decide; eexists; (split; [done|]); set_solver.
Qed.

Lemma step_adj_reverse fk adj :
  ∃ edges, step_adj fk adj !! fk_to_table fk = Some edges
           ∧ reverse_edge fk ∈ edges.
Proof.
  rewrite lookup_step_adj. simpl.
  destruct (decide (fk_to_table fk = fk_to_table fk)); [|done].
  eexists; split; [done|]. set_solver.
Qed.

(** Whatever a list holds after one more foreign key was there before or
    is one of its two edges. *)
Lemma step_adj_inv fk adj k edges edge :
  step_adj fk adj !! k = Some edges → edge ∈ edges →
  (∃ old, adj !! k = Some old ∧ edge ∈ old)
  ∨ (k = fk_from_table fk ∧ edge = forward_edge fk)
  ∨ (k = fk_to_table fk ∧ edge = reverse_edge fk).
Proof.
  rewrite lookup_step_adj. simpl. intros Hk Hin.
  destruct (decide (fk_from_table fk = k)), (decide (fk_to_table fk = k)),
    (adj !! k) as [old|] eqn:E; simplify_eq/=;
    rewrite ?elem_of_app, ?elem_of_cons, ?elem_of_nil in Hin;
    naive_solver.
Qed.

Lemma step_adj_keys fk adj k :
  is_Some (step_adj fk adj !! k) ↔
  k = fk_from_table fk ∨ k = fk_to_table fk ∨ is_Some (adj !! k).
Proof.
  rewrite lookup_step_adj. simpl.
  destruct (decide (fk_from_table fk = k)), (decide (fk_to_table fk = k));
    split; eauto; intros [?|[?|?]]; done.
Qed.

Lemma step_adj_closed fk adj :
  adjacency_closed adj → adjacency_closed (step_adj fk adj).
Proof.
  intros Hc k edges edge Hk Hin. apply step_adj_keys.
  destruct (step_adj_inv _ _ _ _ _ Hk Hin)
    as [(old & Hold & Hin')|[[-> ->]|[-> ->]]]; simpl; eauto.
Qed.

Lemma foldl_adjacency_grows fks st k edges :
  st.1 !! k = Some edges →
  ∃ more, (foldl add_foreign_key st fks).1 !! k = Some (edges ++ more).
Proof.
  revert st edges. induction fks as [|fk fks IH]; intros st edges Hk; simpl.
  - exists []. by rewrite app_nil_r.
  - destruct (step_adj_grows fk st.1 k edges Hk) as [m1 H1].
    rewrite <-add_foreign_key_adj in H1.
    destruct (IH _ _ H1) as [m2 H2].
    exists (m1 ++ m2). by rewrite (assoc_L (++)).
Qed.

Lemma foldl_adjacency_edges fks st fk :
  fk ∈ fks →
  (∃ edges, (foldl add_foreign_key st fks).1 !! fk_from_table fk = Some edges
            ∧ forward_edge fk ∈ edges)
  ∧ (∃ edges, (foldl add_foreign_key st fks).1 !! fk_to_table fk = Some edges
              ∧ reverse_edge fk ∈ edges).
Proof.
  revert st. induction fks as [|fk' fks IH]; intros st Hin; [by inversion Hin|].
  apply elem_of_cons in Hin as [->|Hin]; [|by apply IH].
  simpl. split.
  - destruct (step_adj_forward fk' st.1) as (edges & Hk & He).
    rewrite <-add_foreign_key_adj in Hk.
    destruct (foldl_adjacency_grows fks _ _ _ Hk) as [more Hm].
    exists (edges ++ more). split; [done|]. set_solver.
  - destruct (step_adj_reverse fk' st.1) as (edges & Hk & He).
    rewrite <-add_foreign_key_adj in Hk.
    destruct (foldl_adjacency_grows fks _ _ _ Hk) as [more Hm].
    exists (edges ++ more). split; [done|]. set_solver.
Qed.

Lemma foldl_adjacency_closed fks st :
  adjacency_closed st.1 →
  adjacency_closed (foldl add_foreign_key st fks).1.
Proof.
  revert st. induction fks as [|fk fks IH]; intros st Hc; [done|].
  simpl. apply IH. rewrite add_foreign_key_adj. by apply step_adj_closed.
Qed.

Lemma build_graph_adjacency conn :
  adjacency (build_relationship_graph conn)
  = (build_adjacency (get_foreign_keys conn)).1.
Proof.
  unfold build_relationship_graph.
  by destruct (build_adjacency (get_foreign_keys conn)).
Qed.

(** The graph that is built never names a table without an adjacency list
    of its own, so the path finder's [graph['adjacency'][current_table]]
    cannot raise on it. *)
Lemma build_graph_closed conn :
  adjacency_closed (adjacency (build_relationship_graph conn)).
Proof.
  rewrite build_graph_adjacency. apply foldl_adjacency_closed.
  intros k edges edge Hk. simpl in Hk. by rewrite lookup_empty in Hk.
Qed.
End build_graph.

(** C2 (symmetry): for every foreign key of the list, from table A to table
    B, the built graph has in [adjacency[A]] an edge to B and in
    [adjacency[B]] an edge to A flagged as reverse, both carrying the
    constraint name of that foreign key (and its two columns, swapped in the
    reverse edge). *)
Theorem build_graph_symmetric (conn : Catalog) (fk : ForeignKey) :
  fk ∈ get_foreign_keys conn →
  let graph := build_relationship_graph conn in
  (∃ edges edge,
      adjacency graph !! fk_from_table fk = Some edges ∧ edge ∈ edges
      ∧ e_to edge = fk_to_table fk
      ∧ e_constraint edge = fk_constraint_name fk
      ∧ e_from_column edge = fk_from_column fk
      ∧ e_to_column edge = fk_to_column fk)
  ∧ (∃ edges edge,
      adjacency graph !! fk_to_table fk = Some edges ∧ edge ∈ edges
      ∧ e_to edge = fk_from_table fk
      ∧ e_reverse edge = Some true
      ∧ e_constraint edge = fk_constraint_name fk
      ∧ e_from_column edge = fk_to_column fk
      ∧ e_to_column edge = fk_from_column fk).
Proof.
  intros Hin graph. subst graph. rewrite build_graph_adjacency.
  destruct (foldl_adjacency_edges _ (∅, ∅) fk Hin)
    as [(es1 & H1 & Hf) (es2 & H2 & Hr)].
  split.
  - exists es1, (forward_edge fk). by repeat split.
  - exists es2, (reverse_edge fk). by repeat split.
Qed.

Lemma build_graph_symmetric_witness :
  fk_orders_customers ∈ get_foreign_keys shop_catalog
  ∧ ∃ edges edge,
      adjacency (build_relationship_graph shop_catalog) !! "customers"
        = Some edges
      ∧ edge ∈ edges ∧ e_to edge = "orders" ∧ e_reverse edge = Some true
      ∧ e_constraint edge = "orders_customer_id_fkey".
Proof.
  assert (Hin : fk_orders_customers ∈ get_foreign_keys shop_catalog)
    by (apply list_elem_of_further, list_elem_of_here).
  split; [exact Hin|].
  destruct (build_graph_symmetric shop_catalog fk_orders_customers Hin)
    as [_ (edges & edge & Hk & He & Hto & Hrev & Hc & _)].
  exists edges, edge. repeat split; assumption.
Defined.

Section graph_nodes.
Implicit Types (adj : gmap string (list Edge)) (fk : ForeignKey).

Lemma foldl_nodes_keys fks st :
  (∀ k, k ∈ st.2 ↔ is_Some (st.1 !! k)) →
  ∀ k, k ∈ (foldl add_foreign_key st fks).2
       ↔ is_Some ((foldl add_foreign_key st fks).1 !! k).
Proof.
  revert st. induction fks as [|fk fks IH]; intros st Hst; [done|].
  simpl. apply IH. intros k. rewrite add_foreign_key_adj, step_adj_keys.
  destruct st as [adj ns]. simpl in *. rewrite !elem_of_union, !elem_of_singleton, Hst.
  tauto.
Qed.

(** The node list holds exactly the keys of the adjacency map. *)
Lemma elem_of_nodes conn k :
  k ∈ nodes (build_relationship_graph conn)
  ↔ is_Some (adjacency (build_relationship_graph conn) !! k).
Proof.
  unfold build_relationship_graph.
  pose proof (foldl_nodes_keys (get_foreign_keys conn) (∅, ∅)) as Hk.
  fold (build_adjacency (get_foreign_keys conn)) in Hk.
  destruct (build_adjacency (get_foreign_keys conn)) as [adj ns].
  simpl in *. unfold sorted_nodes.
  rewrite merge_sort_Permutation, elem_of_elements. apply Hk.
  intros k'. rewrite lookup_empty, elem_of_empty.
  split; [done|]. by intros [? ?].
Qed.
End graph_nodes.

(** ** The junction-table classifier *)

Section grouping.
Context {V : Type}.
Implicit Types (d : list (string * list V)) (k : string) (v : V).

Lemma dd_append_keys k v d :
  (dd_append k v d).*1 = if decide (k ∈ d.*1) then d.*1 else d.*1 ++ [k].
Proof.
  induction d as [|[k' vs] d IH]; [done|]. simpl.
  destruct (decide (k' = k)) as [->|Hne]; csimpl.
  - by rewrite decide_True by apply list_elem_of_here.
  - rewrite IH. destruct (decide (k ∈ d.*1)) as [Hin|Hnin].
    + by rewrite decide_True by by apply list_elem_of_further.
    + rewrite decide_False; [done|].
      intros [?|?]%elem_of_cons; congruence.
Qed.

Lemma dd_append_NoDup k v d : NoDup d.*1 → NoDup (dd_append k v d).*1.
Proof.
  intros Hd. rewrite dd_append_keys. case_decide; [done|].
  apply NoDup_app. split; [done|]. split; [|apply NoDup_singleton].
  intros x Hx ->%list_elem_of_singleton. done.
Qed.

(** Read as a map, the grouped list gets the new value at the end of the
    list of its key. *)
Lemma dd_append_lookup k v d :
  (list_to_map (dd_append k v d) : gmap string (list V))
  = <[k := default [] ((list_to_map d : gmap string (list V)) !! k) ++ [v]]>
      (list_to_map d).
Proof.
  induction d as [|[k' vs] d IH]; simpl.
  - by rewrite lookup_empty.
  - destruct (decide (k' = k)) as [->|Hne]; simpl.
    + by rewrite lookup_insert_eq, insert_insert_eq.
    + rewrite IH, lookup_insert_ne by done. by apply insert_insert_ne.
Qed.
End grouping.

Section classifier.
Implicit Types (fk : ForeignKey) (conn : Catalog).

Lemma foldl_group_spec fks d pre :
  NoDup d.*1 →
  (∀ t, (list_to_map d : gmap string (list ForeignKey)) !! t
        = group_of (owned t pre)) →
  let d' := foldl (λ d fk, dd_append (fk_from_table fk) fk d) d fks in
  NoDup d'.*1
  ∧ ∀ t, (list_to_map d' : gmap string (list ForeignKey)) !! t
         = group_of (owned t (pre ++ fks)).
Proof.
  revert d pre. induction fks as [|fk fks IH]; intros d pre Hnd Hd; simpl.
  - by rewrite app_nil_r.
  - replace (pre ++ fk :: fks) with ((pre ++ [fk]) ++ fks)
      by by rewrite <-(assoc_L (++)).
    apply IH; [by apply dd_append_NoDup|].
    intros t. rewrite dd_append_lookup. unfold owned. rewrite filter_app.
    destruct (decide (fk_from_table fk = t)) as [<-|Hne].
    + rewrite lookup_insert_eq, Hd, filter_cons_True by done.
      unfold owned. by destruct (filter _ pre).
    + rewrite lookup_insert_ne, Hd, filter_cons_False by done.
      unfold owned. by rewrite filter_nil, app_nil_r.
Qed.

(** [fk_by_table] lists every table that owns a foreign key once, with
    the foreign keys it owns in list order. *)
Lemma group_by_table_spec fks t l :
  (t, l) ∈ group_by_table fks ↔ l = owned t fks ∧ l ≠ [].
Proof.
  destruct (foldl_group_spec fks [] []) as [Hnd Hl];
    [apply NoDup_nil_2|by intros; simpl; rewrite lookup_empty|].
  fold (group_by_table fks) in Hnd, Hl. simpl in Hl.
  rewrite (elem_of_list_to_map (M:=gmap string)) by done. rewrite Hl.
  destruct (owned t fks) as [|fk0 rest]; simpl; split.
  - done.
  - by intros [-> ?].
  - by intros [= <-].
  - by intros [-> _].
Qed.

Lemma elem_of_detect_many_to_many conn jc :
  jc ∈ detect_many_to_many conn ↔
  ∃ fk0 fk1,
    owned (junction_table jc) (get_foreign_keys conn) = [fk0; fk1]
    ∧ (cat_column_count conn (junction_table jc) ≤ 4)%Z
    ∧ jc = {| junction_table := junction_table jc;
              table1 := fk_to_table fk0;
              table1_column := fk_to_column fk0;
              table2 := fk_to_table fk1;
              table2_column := fk_to_column fk1;
              junction_column1 := fk_from_column fk0;
              junction_column2 := fk_from_column fk1 |}.
Proof.
  unfold detect_many_to_many. rewrite list_elem_of_bind. split.
  - intros ([t l] & Hjc & Hin). apply group_by_table_spec in Hin as [-> _].
    simpl in Hjc.
    destruct (owned t _) as [|fk0 [|fk1 [|? ?]]] eqn:Ho;
      try by inversion Hjc.
    case_bool_decide; [|by inversion Hjc].
    apply list_elem_of_singleton in Hjc as ->. simpl.
    exists fk0, fk1. by rewrite Ho.
  - intros (fk0 & fk1 & Ho & Hc & Hjc).
    exists (junction_table jc, [fk0; fk1]). split.
    + simpl. rewrite bool_decide_eq_true_2 by done.
      rewrite Hjc at 1. apply list_elem_of_here.
    + apply group_by_table_spec. by rewrite Ho.
Qed.
End classifier.

(** C7: a table is given a junction candidate exactly when it owns exactly
    two foreign-key records and has at most four columns; two foreign keys
    with five columns give none, three or more foreign keys give none
    whatever the column count; and a candidate takes [table1] from the
    first owned foreign key and [table2] from the second (with their
    columns). *)
Theorem detect_many_to_many_boundary (conn : Catalog) :
  let fks := get_foreign_keys conn in
  let owns t := filter (λ fk, fk_from_table fk = t) fks in
  let classified t :=
    ∃ jc, jc ∈ detect_many_to_many conn ∧ junction_table jc = t in
  (∀ t, classified t ↔
        length (owns t) = 2 ∧ (cat_column_count conn t ≤ 4)%Z)
  ∧ (∀ t, length (owns t) = 2 → cat_column_count conn t = 5%Z →
          ¬ classified t)
  ∧ (∀ t, 3 ≤ length (owns t) → ¬ classified t)
  ∧ (∀ jc, jc ∈ detect_many_to_many conn →
       ∃ fk0 fk1,
         owns (junction_table jc) = [fk0; fk1]
         ∧ table1 jc = fk_to_table fk0 ∧ table2 jc = fk_to_table fk1
         ∧ table1_column jc = fk_to_column fk0
         ∧ table2_column jc = fk_to_column fk1
         ∧ junction_column1 jc = fk_from_column fk0
         ∧ junction_column2 jc = fk_from_column fk1).
Proof.
  intros fks owns classified.
  assert (Hiff : ∀ t, classified t ↔
            length (owns t) = 2 ∧ (cat_column_count conn t ≤ 4)%Z).
  { intros t. split.
    - intros (jc & (fk0 & fk1 & Ho & Hc & _)%elem_of_detect_many_to_many & <-).
      subst owns fks. simpl. unfold owned in Ho. by rewrite Ho.
    - intros [Hlen Hc].
      destruct (owns t) as [|fk0 [|fk1 [|? ?]]] eqn:Ho; try done.
      eexists {| junction_table := t |}. split; [|done].
      apply elem_of_detect_many_to_many. by exists fk0, fk1. }
  split; [exact Hiff|]. split; [|split].
  - intros t _ H5 [_ Hc]%Hiff. lia.
  - intros t H3 [Hl _]%Hiff. lia.
  - intros jc (fk0 & fk1 & Ho & _ & ->)%elem_of_detect_many_to_many.
    by exists fk0, fk1.
Qed.

(** The boundary on [order_products]: a junction with three or four
    columns, none with five. *)
Example detect_many_to_many_order_products :
  detect_many_to_many (bridge_catalog 3) =
    [ {| junction_table := "order_products";
         table1 := "orders"; table1_column := "id";
         table2 := "products"; table2_column := "id";
         junction_column1 := "order_id";
         junction_column2 := "product_id" |} ]
  ∧ detect_many_to_many (bridge_catalog 4) = detect_many_to_many (bridge_catalog 3)
  ∧ detect_many_to_many (bridge_catalog 5) = [].
Proof. repeat split; by vm_compute. Qed.

(** ** The breadth-first search *)

Section path_shape.
Implicit Types (path : JoinPath) (step : JoinStep).

Lemma path_end_snoc start path step :
  path_end start (path ++ [step]) = s_to step.
Proof. unfold path_end. rewrite fmap_app. apply last_last. Qed.

Lemma links_snoc start path step :
  links start (path ++ [step])
  ↔ links start path ∧ s_from step = path_end start path.
Proof.
  revert start. induction path as [|s path IH]; intros start; simpl.
  - unfold path_end. simpl. tauto.
  - rewrite IH. unfold path_end. simpl.
    replace (List.last (s_to <$> path) (s_to s))
      with (match s_to <$> path with
            | [] => s_to s
            | _ :: _ => List.last (s_to <$> path) start
            end); [tauto|].
    destruct (s_to <$> path) as [|x l]; [done|].
    clear. revert x. induction l as [|y l IH]; intros x; [done|].
    simpl in *. apply IH.
Qed.

Lemma links_lookup start path i a b :
  links start path → path !! i = Some a → path !! S i = Some b →
  s_to a = s_from b.
Proof.
  revert start i. induction path as [|s path IH]; intros start i; [done|].
  intros [_ Hl] Ha Hb. destruct i as [|i]; simplify_eq/=.
  - destruct path as [|s' path]; simplify_eq/=. by destruct Hl.
  - by eapply IH.
Qed.

Lemma links_head start path first :
  links start path → head path = Some first → s_from first = start.
Proof. destruct path; intros Hl ?; simplify_eq/=. by destruct Hl. Qed.

Lemma path_end_last start path final :
  last path = Some final → path_end start path = s_to final.
Proof.
  intros Hl. destruct (last_Some path final) as [[l' ->] _]; [done|].
  apply path_end_snoc.
Qed.
End path_shape.

Section scan.
Variables (adj : gmap string (list Edge)) (end_table : string).
Implicit Types (queue : Queue) (visited : gset string) (path : JoinPath).

(** What the inner loop did when it returned a path. *)
Lemma scan_edges_inl cur path edges visited queue new_path :
  scan_edges cur end_table path edges visited queue = inl new_path →
  (end_table ∉ visited)
  ∧ ∃ edge, edge ∈ edges ∧ e_to edge = end_table
            ∧ new_path = path ++ [mk_step cur edge].
Proof.
  revert visited queue.
  induction edges as [|edge edges IH]; intros visited queue; [done|].
  simpl. destruct (decide (e_to edge ∈ visited)).
  - intros (? & e' & ? & ?)%IH. split; [done|].
    exists e'. split; [by right|done].
  - destruct (decide (e_to edge = end_table)) as [<-|].
    + intros [= <-]. split; [done|]. exists edge. split; [by left|done].
    + intros (Hv & e' & ? & ?)%IH. split; [set_solver|].
      exists e'. split; [by right|done].
Qed.

(** What the inner loop did when it fell through: it appended one entry
    per newly met table, marked exactly those as visited, and left no
    edge leading to an unvisited table. *)
Lemma scan_edges_inr cur path edges visited queue visited' queue' :
  scan_edges cur end_table path edges visited queue
    = inr (visited', queue') →
  ∃ new : Queue,
    queue' = queue ++ new
    ∧ (∀ x, x ∈ visited' ↔ x ∈ visited ∨ x ∈ new.*1)
    ∧ (∀ t p, (t, p) ∈ new →
         (t ∉ visited) ∧ (t ≠ end_table)
         ∧ ∃ edge, edge ∈ edges ∧ t = e_to edge
                   ∧ p = path ++ [mk_step cur edge])
    ∧ (∀ edge, edge ∈ edges → e_to edge ∈ visited').
Proof.
  revert visited queue.
  induction edges as [|edge edges IH]; intros visited queue; simpl.
  - intros [= <- <-]. exists []. rewrite app_nil_r.
    split; [done|]. split; [|split].
    + intros x. rewrite elem_of_nil. tauto.
    + intros t p Hin. by apply elem_of_nil in Hin.
    + intros e' Hin. by apply elem_of_nil in Hin.
  - destruct (decide (e_to edge ∈ visited)) as [Hv|Hv].
    + intros (new & -> & Hvis & Hnew & Hall)%IH. exists new.
      split; [done|]. split; [done|]. split.
      * intros t p Hin. destruct (Hnew t p Hin) as (? & ? & e' & ? & ?).
        split; [done|]. split; [done|]. exists e'. split; [by right|done].
      * intros e' [->|?]%elem_of_cons; [|by apply Hall].
        apply Hvis. by left.
    + destruct (decide (e_to edge = end_table)) as [|Hne]; [done|].
      intros (new & -> & Hvis & Hnew & Hall)%IH.
      exists ((e_to edge, path ++ [mk_step cur edge]) :: new).
      split; [by rewrite <-(assoc_L (++))|]. split; [|split].
      * intros x. rewrite Hvis, elem_of_union, elem_of_singleton.
        rewrite fmap_cons, elem_of_cons. simpl. tauto.
      * intros t p [[= -> ->]|Hin]%elem_of_cons.
        -- split; [done|]. split; [done|]. exists edge.
           split; [by left|done].
        -- destruct (Hnew t p Hin) as (Hnv & ? & e' & ? & ?).
           split; [set_solver|]. split; [done|].
           exists e'. split; [by right|done].
      * intros e' [->|?]%elem_of_cons; [|by apply Hall].
        apply Hvis. left. set_solver.
Qed.

Lemma unvisited_add_le targets visited v :
  length (unvisited targets ({[v]} ∪ visited))
  ≤ length (unvisited targets visited).
Proof.
  unfold unvisited. induction targets as [|u targets IH]; [done|].
  rewrite !filter_cons.
  destruct (decide (u ∉ {[v]} ∪ visited)), (decide (u ∉ visited));
    simpl; try lia. set_solver.
Qed.

Lemma unvisited_add_lt targets visited v :
  v ∈ targets → v ∉ visited →
  length (unvisited targets ({[v]} ∪ visited))
  < length (unvisited targets visited).
Proof.
  intros Hin Hv. unfold unvisited.
  induction targets as [|u targets IH]; [by inversion Hin|].
  rewrite !filter_cons. apply elem_of_cons in Hin as [<-|Hin].
  - rewrite decide_False by set_solver. rewrite decide_True by done.
    simpl. pose proof (unvisited_add_le targets visited v) as Hle.
    unfold unvisited in Hle. lia.
  - specialize (IH Hin).
    destruct (decide (u ∉ {[v]} ∪ visited)), (decide (u ∉ visited));
      simpl; try lia. set_solver.
Qed.

(** Each table the inner loop appends to the queue leaves the unvisited
    ones. *)
Lemma scan_edges_measure targets cur path edges visited queue
    visited' queue' :
  (∀ edge, edge ∈ edges → e_to edge ∈ targets) →
  scan_edges cur end_table path edges visited queue
    = inr (visited', queue') →
  length (unvisited targets visited') + length queue'
  ≤ length (unvisited targets visited) + length queue.
Proof.
  revert visited queue.
  induction edges as [|edge edges IH]; intros visited queue Ht; simpl.
  - by intros [= <- <-].
  - destruct (decide (e_to edge ∈ visited)) as [Hv|Hv].
    + apply IH. intros e' ?. apply Ht. by right.
    + destruct (decide (e_to edge = end_table)); [done|].
      intros Hs. apply IH in Hs; [|intros e' ?; apply Ht; by right].
      rewrite length_app in Hs. simpl in Hs.
      pose proof (unvisited_add_lt targets visited (e_to edge)
                    (Ht edge ltac:(by left)) Hv). lia.
Qed.
End scan.

Section bfs_loop.
Variables (adj : gmap string (list Edge)) (start end_table : string).
Implicit Types (queue : Queue) (visited : gset string) (path : JoinPath).

Lemma edge_targets_spec k edges edge :
  adj !! k = Some edges → edge ∈ edges → e_to edge ∈ edge_targets adj.
Proof.
  intros Hk Hin. unfold edge_targets. apply list_elem_of_bind.
  exists (k, edges). split; [by apply list_elem_of_fmap_2|].
  by apply elem_of_map_to_list.
Qed.

(** The loop ends within the steps it is granted. *)
Lemma bfs_fuel_enough fuel queue visited :
  length (unvisited (edge_targets adj) visited) + length queue < fuel →
  bfs fuel adj end_table queue visited ≠ OutOfFuel.
Proof.
  revert queue visited.
  induction fuel as [|fuel IH]; intros queue visited Hm; [lia|].
  simpl. destruct queue as [|[cur path] queue]; [done|].
  destruct (adj !! cur) as [edges|] eqn:Hcur; [|done].
  destruct (scan_edges _ _ _ _ _ _) as [?|[visited' queue']] eqn:Hs;
    [done|].
  apply IH.
  apply (scan_edges_measure _ (edge_targets adj)) in Hs;
    [simpl in Hm; lia|].
  intros edge Hin. by eapply edge_targets_spec.
Qed.

(** On a closed adjacency map the loop never looks up a missing key. *)
Lemma bfs_no_raise fuel queue visited e :
  adjacency_closed adj →
  (∀ t p, (t, p) ∈ queue → is_Some (adj !! t)) →
  bfs fuel adj end_table queue visited ≠ Raised e.
Proof.
  intros Hc. revert queue visited.
  induction fuel as [|fuel IH]; intros queue visited Hq; [done|].
  simpl. destruct queue as [|[cur path] queue]; [done|].
  destruct (adj !! cur) as [edges|] eqn:Hcur.
  - destruct (scan_edges _ _ _ _ _ _) as [?|[visited' queue']] eqn:Hs;
      [done|].
    apply IH. intros t p Hin.
    apply scan_edges_inr in Hs as (new & -> & _ & Hnew & _).
    apply elem_of_app in Hin as [Hin|Hin].
    + apply (Hq t p). by right.
    + destruct (Hnew t p Hin) as (_ & _ & edge & Hedge & -> & _).
      by eapply Hc.
  - destruct (Hq cur path ltac:(by left)) as [? ?]. congruence.
Qed.

(** The path the loop returns is well formed and not empty. *)
Lemma bfs_path_wf fuel queue visited path :
  queue_wf start visited queue →
  bfs fuel adj end_table queue visited = Done (Some path) →
  links start path ∧ path_end start path = end_table
  ∧ NoDup (s_to <$> path) ∧ path ≠ [].
Proof.
  revert queue visited.
  induction fuel as [|fuel IH]; intros queue visited Hwf; [done|].
  simpl. destruct queue as [|[cur p] queue]; [done|].
  destruct (adj !! cur) as [edges|] eqn:Hcur; [|done].
  destruct (Hwf cur p ltac:(by left)) as (Hl & He & Hnd & Hv).
  destruct (scan_edges _ _ _ _ _ _) as [np|[visited' queue']] eqn:Hs.
  - intros [= <-].
    apply scan_edges_inl in Hs as (Hnv & edge & Hin & Hto & ->).
    split; [|split; [|split]].
    + apply links_snoc. by rewrite He.
    + by rewrite path_end_snoc.
    + rewrite fmap_app. apply NoDup_app. split; [done|].
      split; [|apply NoDup_singleton].
      intros x Hx ->%list_elem_of_singleton. simpl in Hx.
      apply Hv in Hx. congruence.
    + by destruct p.
  - intros Hr. eapply IH; [|done].
    apply scan_edges_inr in Hs as (new & -> & Hvis & Hnew & _).
    intros t p' [Hin|Hin]%elem_of_app.
    + destruct (Hwf t p' ltac:(by right)) as (? & ? & ? & Hv').
      repeat split; try done. intros v ?. apply Hvis. left. by apply Hv'.
    + destruct (Hnew t p' Hin) as (Hnv & _ & edge & _ & -> & ->).
      split; [|split; [|split]].
      * apply links_snoc. by rewrite He.
      * by rewrite path_end_snoc.
      * rewrite fmap_app. apply NoDup_app. split; [done|].
        split; [|apply NoDup_singleton].
        intros x Hx ->%list_elem_of_singleton. by apply Hnv, Hv.
      * intros v. rewrite fmap_app, elem_of_app. intros [Hx|Hx].
        -- apply Hvis. left. by apply Hv.
        -- apply list_elem_of_singleton in Hx as ->. apply Hvis. right.
           apply list_elem_of_fmap. by exists (e_to edge, p ++ [mk_step cur edge]).
Qed.
End bfs_loop.

Section bfs_shortest.
Variables (adj : gmap string (list Edge)) (start end_table : string).
Implicit Types (visited : gset string) (lev : string → nat).

Lemma elem_of_queue_keys (queue : Queue) t :
  t ∈ queue.*1 ↔ ∃ p, (t, p) ∈ queue.
Proof.
  rewrite list_elem_of_fmap. split.
  - intros ([t' p] & -> & ?). by exists p.
  - intros [p ?]. by exists (t, p).
Qed.

(** A walk that leaves the visited tables passes through a queued table,
    and the path queued with it is no detour. *)
Lemma bfs_inv_frontier lev L q1 q2 visited u w r :
  bfs_inv adj start end_table lev L q1 q2 visited →
  walk adj u w r → u ∈ visited → w ∉ visited →
  ∃ t p r', (t, p) ∈ q1 ++ q2 ∧ walk adj t w r'
            ∧ length p + r' ≤ lev u + r.
Proof.
  intros Hinv Hw. induction Hw as [u|u edges edge v k Hu Hedge Hw IH];
    intros Hvis Hnv; [done|].
  destruct (decide (u ∈ (q1 ++ q2).*1)) as [Hq|Hq].
  - apply elem_of_queue_keys in Hq as [p Hp].
    destruct (inv_queue _ _ _ _ _ _ _ _ Hinv u p Hp) as [_ Hlev].
    exists u, p, (S k). split; [done|]. split; [|lia].
    by eapply walk_edge.
  - destruct (inv_done _ _ _ _ _ _ _ _ Hinv u edges edge Hvis Hq Hu Hedge)
      as [Hv' Hlev].
    destruct (IH Hv' Hnv) as (t & p & r' & ? & ? & ?).
    exists t, p, r'. split; [done|]. split; [done|]. lia.
Qed.

(** When the paths of [L] steps are used up, those of [S L] steps are
    next. *)
Lemma bfs_inv_shift lev L q2 visited :
  bfs_inv adj start end_table lev L [] q2 visited →
  bfs_inv adj start end_table lev (S L) q2 [] visited.
Proof.
  intros [H1 H2 H3 H4 H5 H6 H7 H8].
  split; rewrite ?app_nil_r; simpl in *; try done.
  - intros t p Hin. by apply elem_of_nil in Hin.
  - intros x Hx. specialize (H8 x Hx). lia.
Qed.

(** No walk to [end_table] is shorter than one step more than the path
    at the front of the queue. *)
Lemma bfs_inv_front_min lev L t p q1 q2 visited k :
  bfs_inv adj start end_table lev L ((t, p) :: q1) q2 visited →
  walk adj start end_table k → S (length p) ≤ k.
Proof.
  intros Hinv Hw.
  destruct (bfs_inv_frontier _ _ _ _ _ _ _ _ Hinv Hw)
    as (t' & p' & r' & Hin & Hw' & Hle);
    [by eapply inv_start|by eapply inv_end|].
  rewrite (inv_start_lev _ _ _ _ _ _ _ _ Hinv) in Hle.
  assert (length p = L) as HL
    by (eapply (inv_q1 _ _ _ _ _ _ _ _ Hinv); by left).
  assert (L ≤ length p') as Hp'.
  { apply elem_of_app in Hin as [Hin|Hin].
    - by rewrite (inv_q1 _ _ _ _ _ _ _ _ Hinv _ _ Hin).
    - rewrite (inv_q2 _ _ _ _ _ _ _ _ Hinv _ _ Hin). lia. }
  destruct r' as [|r'].
  - inversion Hw'; subst.
    destruct (inv_queue _ _ _ _ _ _ _ _ Hinv _ _ Hin) as [Hv _].
    by apply (inv_end _ _ _ _ _ _ _ _ Hinv) in Hv.
  - lia.
Qed.

(** One [popleft] and its inner loop keep the invariant. *)
Lemma bfs_inv_step lev L t p q1 q2 visited edges visited' queue' :
  bfs_inv adj start end_table lev L ((t, p) :: q1) q2 visited →
  adj !! t = Some edges →
  scan_edges t end_table p edges visited (q1 ++ q2)
    = inr (visited', queue') →
  ∃ lev' new, queue' = q1 ++ (q2 ++ new)
    ∧ bfs_inv adj start end_table lev' L q1 (q2 ++ new) visited'.
Proof.
  intros Hinv Ht Hs.
  apply scan_edges_inr in Hs as (new & -> & Hvis & Hnew & Hall).
  destruct Hinv as [H1 H2 H3 H4 H5 H6 H7 H8].
  set (lev' := λ x, if decide (x ∈ new.*1) then S L else lev x).
  assert (Hfresh : ∀ x, x ∈ new.*1 → (x ∉ visited) ∧ x ≠ end_table).
  { intros x [p' Hp']%elem_of_queue_keys.
    by destruct (Hnew x p' Hp') as (? & ? & _). }
  assert (Hold : ∀ x, x ∈ visited → lev' x = lev x).
  { intros x Hx. unfold lev'. rewrite decide_False; [done|].
    intros Hn. by apply Hfresh in Hn as [? _]. }
  assert (Hp : length p = L) by (apply (H6 t); by left).
  assert (Htv : t ∈ visited ∧ lev t = L).
  { destruct (H4 t p) as [? ?]; [by left|]. split; [done|]. congruence. }
  exists lev', new. split; [by rewrite (assoc_L (++))|].
  split.
  - apply Hvis. by left.
  - by rewrite Hold.
  - intros [?|Hn]%Hvis; [done|]. by apply Hfresh in Hn as [_ ?].
  - intros t' p' Hin. rewrite (assoc_L (++)) in Hin.
    apply elem_of_app in Hin as [Hin|Hin].
    + destruct (H4 t' p') as [? ?]; [simpl; by right|].
      split; [apply Hvis; by left|]. by rewrite Hold.
    + split; [apply Hvis; right; apply elem_of_queue_keys; by exists p'|].
      unfold lev'. rewrite decide_True
        by (apply elem_of_queue_keys; by exists p').
      destruct (Hnew t' p' Hin) as (_ & _ & edge & _ & _ & ->).
      rewrite length_app. simpl. lia.
  - intros u es edge Hu Hq Hes Hedge.
    rewrite (assoc_L (++)), fmap_app, elem_of_app in Hq.
    apply Hvis in Hu as [Hu|Hu]; [|tauto].
    rewrite (Hold u Hu).
    destruct (decide (u = t)) as [->|Hne].
    + assert (es = edges) as -> by congruence.
      split; [by apply Hall|].
      destruct Htv as [_ ->]. unfold lev'. case_decide; [done|].
      apply H8. specialize (Hall edge Hedge).
      apply Hvis in Hall as [?|?]; done.
    + destruct (H5 u es edge) as [Hv Hl]; try done.
      { simpl. rewrite elem_of_cons. tauto. }
      split; [apply Hvis; by left|]. by rewrite Hold.
  - intros t' p' Hin. apply (H6 t'). by right.
  - intros t' p' [Hin|Hin]%elem_of_app; [by eapply H7|].
    destruct (Hnew t' p' Hin) as (_ & _ & edge & _ & _ & ->).
    rewrite length_app. simpl. lia.
  - intros x [Hx|Hx]%Hvis; [rewrite Hold by done; by apply H8|].
    unfold lev'. by rewrite decide_True.
Qed.

(** Whatever the loop returns, it is a path, and no walk from [start] to
    [end_table] has fewer edges. *)
Lemma bfs_shortest_inv fuel lev L q1 q2 visited r k :
  bfs_inv adj start end_table lev L q1 q2 visited →
  bfs fuel adj end_table (q1 ++ q2) visited = Done r →
  walk adj start end_table k →
  ∃ path, r = Some path ∧ length path ≤ k.
Proof.
  intros Hinv Hr Hw. revert lev L q1 q2 visited Hinv Hr.
  induction fuel as [|fuel IH]; intros lev L q1 q2 visited Hinv; [done|].
  assert (∀ t p q1' q2' L',
    bfs_inv adj start end_table lev L' ((t, p) :: q1') q2' visited →
    bfs (S fuel) adj end_table (((t, p) :: q1') ++ q2') visited = Done r →
    ∃ path, r = Some path ∧ length path ≤ k) as Hcons.
  { intros t p q1' q2' L' Hinv'. simpl.
    destruct (adj !! t) as [edges|] eqn:Ht; [|done].
    destruct (scan_edges _ _ _ _ _ _) as [np|[visited' queue']] eqn:Hs.
    - intros [= <-]. exists np. split; [done|].
      apply scan_edges_inl in Hs as (_ & edge & _ & _ & ->).
      rewrite length_app. simpl.
      pose proof (bfs_inv_front_min _ _ _ _ _ _ _ _ Hinv' Hw). lia.
    - destruct (bfs_inv_step _ _ _ _ _ _ _ _ _ _ Hinv' Ht Hs)
        as (lev' & new & -> & Hinv'').
      by apply IH with lev' L'. }
  destruct q1 as [|[t p] q1]; [|by apply Hcons with L].
  destruct q2 as [|[t p] q2].
  - destruct (bfs_inv_frontier _ _ _ _ _ _ _ _ Hinv Hw)
      as (? & ? & ? & Hin & _);
      [by eapply inv_start|by eapply inv_end|].
    by apply elem_of_nil in Hin.
  - apply bfs_inv_shift in Hinv. rewrite app_nil_l.
    rewrite <-(app_nil_r (_ :: _)). by apply Hcons with (S L).
Qed.

Lemma bfs_inv_init :
  start ≠ end_table →
  bfs_inv adj start end_table (λ _, 0) 0 [(start, [])] [] {[start]}.
Proof.
  intros Hne. split; simpl.
  - set_solver.
  - done.
  - set_solver.
  - intros t p [= -> ->]%list_elem_of_singleton. set_solver.
  - intros u edges edge ->%elem_of_singleton Hq. destruct Hq. by left.
  - by intros t p [= -> ->]%list_elem_of_singleton.
  - intros t p Hin. by apply elem_of_nil in Hin.
  - intros. lia.
Qed.
End bfs_shortest.

(** ** find_path_between_tables *)

(** The search always ends within the steps granted to its loop, on every
    graph. *)
Lemma find_path_total graph start_table end_table :
  find_path_between_tables graph start_table end_table ≠ OutOfFuel.
Proof.
  unfold find_path_between_tables. case_bool_decide; [done|].
  case_decide; [done|]. apply bfs_fuel_enough. unfold bfs_fuel, unvisited.
  pose proof (length_filter (λ v, v ∉ ({[start_table]} : gset string))
                (edge_targets (adjacency graph))).
  simpl. lia.
Qed.

(** On a graph whose edges all lead to keys the search raises nothing. *)
Lemma find_path_returns graph start_table end_table :
  adjacency_closed (adjacency graph) →
  ∃ r, find_path_between_tables graph start_table end_table = Done r.
Proof.
  intros Hc.
  destruct (find_path_between_tables graph start_table end_table)
    as [r|e|] eqn:Hr; [by exists r| |by apply find_path_total in Hr].
  exfalso. revert Hr. unfold find_path_between_tables.
  case_bool_decide as Hk; [done|]. case_decide; [done|].
  apply bfs_no_raise; [done|].
  intros t p [= -> ->]%list_elem_of_singleton.
  destruct (adjacency graph !! start_table) eqn:E; [done|].
  destruct Hk. by left.
Qed.

(** The membership test comes before the comparison of the two names. *)
Lemma find_path_refl (graph : RelationshipGraph) (x : string) :
  find_path_between_tables graph x x =
    match adjacency graph !! x with
    | Some _ => Done (Some [])
    | None => Done None
    end.
Proof.
  unfold find_path_between_tables.
  destruct (adjacency graph !! x) as [edges|] eqn:Hx.
  - rewrite bool_decide_eq_false_2 by (intros [?|?]; done).
    by rewrite decide_True.
  - by rewrite bool_decide_eq_true_2 by (by left).
Qed.

(** C3, as the code has it: [find_path_between_tables graph x x] is the
    empty path when [x] is a key of the adjacency map; for a table that is
    not a key the membership test that comes first answers [None]. *)
Theorem find_path_same_table (graph : RelationshipGraph) (x : string) :
  find_path_between_tables graph x x =
    match adjacency graph !! x with
    | Some _ => Done (Some [])
    | None => Done None
    end.
Proof. apply find_path_refl. Qed.

(** C3 as stated fails: [products] has no foreign key in either direction,
    so it is no key of the graph and the answer is [None]. *)
Lemma find_path_same_table_absent :
  find_path_between_tables (build_relationship_graph shop_catalog)
    "products" "products" = Done None
  ∧ find_path_between_tables (build_relationship_graph shop_catalog)
      "products" "products" ≠ Done (Some []).
Proof. split; [by vm_compute|]. by vm_compute. Qed.

(** The shortest-path property on any graph whose edges all lead to keys. *)
Lemma find_path_shortest_closed graph start_table end_table k :
  adjacency_closed (adjacency graph) →
  is_Some (adjacency graph !! start_table) →
  is_Some (adjacency graph !! end_table) →
  walk (adjacency graph) start_table end_table k →
  ∃ path,
    find_path_between_tables graph start_table end_table = Done (Some path)
    ∧ length path ≤ k.
Proof.
  intros Hc [es Hs] [ee He] Hw.
  destruct (find_path_returns graph start_table end_table Hc) as [r Hr].
  rewrite Hr. revert Hr. unfold find_path_between_tables.
  rewrite bool_decide_eq_false_2 by (intros [?|?]; congruence).
  case_decide as Hne.
  - intros [= <-]. exists []. split; [done|]. simpl. lia.
  - intros Hr.
    destruct (bfs_shortest_inv (adjacency graph) start_table end_table
                _ (λ _, 0) 0 [(start_table, [])] [] _ r k
                (bfs_inv_init _ _ _ Hne) Hr Hw) as (path & -> & Hle).
    by exists path.
Qed.

(** A non-empty path that is returned leads from [start_table] to
    [end_table] and enters no table twice. *)
Lemma find_path_links graph start_table end_table path :
  find_path_between_tables graph start_table end_table = Done (Some path) →
  path ≠ [] →
  links start_table path ∧ path_end start_table path = end_table
  ∧ NoDup (s_to <$> path).
Proof.
  unfold find_path_between_tables. case_bool_decide; [done|].
  case_decide; [by intros [= <-]|]. intros Hr Hne.
  apply (bfs_path_wf _ start_table) in Hr as (Hl & He & Hnd & _); [done|].
  intros t p [= -> ->]%list_elem_of_singleton. simpl.
  repeat split; [apply NoDup_nil_2|]. intros v Hv. by apply elem_of_nil in Hv.
Qed.

(** C9 (well-formed paths): on every graph, a non-empty path returned by
    [find_path_between_tables] starts at [start_table], ends at
    [end_table], has each step leave the table the step before it entered,
    and enters no table twice. *)
Theorem find_path_well_formed (graph : RelationshipGraph)
    (start_table end_table : string) (path : JoinPath) :
  find_path_between_tables graph start_table end_table = Done (Some path) →
  path ≠ [] →
  (∃ first, head path = Some first ∧ s_from first = start_table)
  ∧ (∃ final, last path = Some final ∧ s_to final = end_table)
  ∧ (∀ i a b, path !! i = Some a → path !! S i = Some b →
              s_to a = s_from b)
  ∧ NoDup (s_to <$> path).
Proof.
  intros Hr Hne.
  destruct (find_path_links _ _ _ _ Hr Hne) as (Hl & He & Hnd).
  split; [|split; [|split]]; [| |by eauto using links_lookup|done].
  - destruct path as [|first rest]; [done|]. exists first.
    split; [done|]. by eapply links_head.
  - destruct (last path) as [final|] eqn:Hlast.
    + exists final. split; [done|].
      by rewrite <-(path_end_last start_table path final Hlast).
    + by apply last_None in Hlast.
Qed.

Lemma find_path_well_formed_witness :
  ∃ path,
    find_path_between_tables (build_relationship_graph shop_catalog)
      "order_items" "customers" = Done (Some path)
    ∧ length path = 2
    ∧ (∃ first, head path = Some first ∧ s_from first = "order_items")
    ∧ (∃ final, last path = Some final ∧ s_to final = "customers")
    ∧ (∀ i a b, path !! i = Some a → path !! S i = Some b →
                s_to a = s_from b)
    ∧ NoDup (s_to <$> path).
Proof.
  eexists. split; [vm_compute; reflexivity|]. split; [reflexivity|].
  apply (find_path_well_formed (build_relationship_graph shop_catalog)
           "order_items" "customers").
  - vm_compute. reflexivity.
  - discriminate.
Defined.

(** ** suggest_join_pattern *)

Lemma suggest_join_pattern_found conn table1 table2 step0 rest :
  find_path_between_tables (build_relationship_graph conn) table1 table2
    = Done (Some (step0 :: rest)) →
  suggest_join_pattern conn table1 table2 =
    Done {| sj_success := true;
            sj_path := Some (step0 :: rest);
            sj_sql := Some (str_join nl (("FROM " +:+ s_from step0)
                                         :: (join_line <$> step0 :: rest)));
            sj_explanation :=
              path_explanation table1 table2 step0 (step0 :: rest) |}.
Proof. intros Hp. unfold suggest_join_pattern. by rewrite Hp. Qed.

Lemma suggest_join_pattern_not_found conn table1 table2 path :
  find_path_between_tables (build_relationship_graph conn) table1 table2
    = Done path →
  falsy path = true →
  suggest_join_pattern conn table1 table2 =
    Done {| sj_success := false;
            sj_path := None;
            sj_sql := None;
            sj_explanation :=
              "No foreign key relationship found between '" +:+ table1 +:+
              "' and '" +:+ table2 +:+ "'" |}.
Proof.
  intros Hp Hf. unfold suggest_join_pattern. rewrite Hp. simpl.
  by destruct path as [[|? ?]|].
Qed.

(** [suggest_join_pattern] returns a result for every catalog and pair of
    tables. *)
Lemma suggest_join_pattern_returns conn table1 table2 :
  ∃ r, suggest_join_pattern conn table1 table2 = Done r.
Proof.
  unfold suggest_join_pattern.
  destruct (find_path_returns (build_relationship_graph conn) table1 table2
              (build_graph_closed conn)) as [path ->].
  simpl. destruct path as [[|? ?]|]; by eexists.
Qed.

(** C4 at the input where the code departs from it: the path finder
    answers the empty path for [orders] to [orders], and
    [suggest_join_pattern] reports [success = False] with the
    no-relationship text all the same, because [if not path] takes the
    empty list for [None]. *)
Theorem suggest_join_pattern_same_table :
  find_path_between_tables (build_relationship_graph shop_catalog)
    "orders" "orders" = Done (Some [])
  ∧ suggest_join_pattern shop_catalog "orders" "orders" =
      Done {| sj_success := false;
              sj_path := None;
              sj_sql := None;
              sj_explanation :=
                "No foreign key relationship found between 'orders' and 'orders'" |}.
Proof. split; by vm_compute. Qed.

(** C5: when [suggest_join_pattern] succeeds its path is not empty and its
    SQL is the line [FROM <from of the first step>] followed by one line
    [JOIN <to> ON <from>.<from_column> = <to>.<to_column>] per step, in path
    order, joined by newlines; and on the graph of the two foreign keys
    [orders.customer_id → customers.id] and
    [order_items.order_id → orders.id] the suggestion for [order_items] and
    [customers] is the two-step path through [orders] with the SQL of the
    specification. *)
Theorem suggest_join_pattern_sql :
  (∀ conn table1 table2 r,
     suggest_join_pattern conn table1 table2 = Done r →
     sj_success r = true →
     ∃ step0 rest,
       sj_path r = Some (step0 :: rest)
       ∧ find_path_between_tables (build_relationship_graph conn)
           table1 table2 = Done (Some (step0 :: rest))
       ∧ sj_sql r = Some (str_join nl
           (("FROM " +:+ s_from step0) ::
            ((λ step, "JOIN " +:+ s_to step +:+ " ON " +:+
                      s_from step +:+ "." +:+ s_from_column step +:+ " = " +:+
                      s_to step +:+ "." +:+ s_to_column step)
               <$> step0 :: rest))))
  ∧ (∃ r, suggest_join_pattern shop_catalog "order_items" "customers" = Done r
          ∧ sj_success r = true
          ∧ (∃ step1 step2,
               sj_path r = Some [step1; step2]
               ∧ (s_from step1, s_to step1) = ("order_items", "orders")
               ∧ (s_from step2, s_to step2) = ("orders", "customers"))
          ∧ sj_sql r = Some
              ("FROM order_items" +:+ nl +:+
               "JOIN orders ON order_items.order_id = orders.id" +:+ nl +:+
               "JOIN customers ON orders.customer_id = customers.id")).
Proof.
  split.
  - intros conn table1 table2 r Hr Hs. unfold suggest_join_pattern in Hr.
    destruct (find_path_between_tables _ table1 table2) as [path| |] eqn:Hp;
      simpl in Hr; try done.
    destruct path as [[|step0 rest]|]; simplify_eq/=.
    by exists step0, rest.
  - eexists. split; [by vm_compute|]. split; [done|]. split; [|done].
    by eexists _, _.
Qed.

Lemma suggest_join_pattern_sql_witness :
  ∃ r, suggest_join_pattern shop_catalog "order_items" "orders" = Done r
       ∧ sj_success r = true
       ∧ sj_sql r = Some ("FROM order_items" +:+ nl +:+
                          "JOIN orders ON order_items.order_id = orders.id").
Proof.
  eexists. split; [vm_compute; reflexivity|]. split; [reflexivity|].
  match goal with
  | |- sj_sql ?r = _ =>
      destruct (proj1 suggest_join_pattern_sql shop_catalog
                  "order_items" "orders" r)
        as (step0 & rest & Hp & _ & Hsql);
        [vm_compute; reflexivity|reflexivity|]
  end.
  simpl in Hp. injection Hp as <- <-. exact Hsql.
Defined.

(** ** generate_join_query *)

Section dedup.
Implicit Types (all_paths : JoinPath) (step : JoinStep).

(** The loop that removes duplicate joins: [seen_joins] holds the keys of
    [unique_joins], which has one step per key of the steps read so far,
    each the first with its key, in the order they were read. *)
Lemma foldl_keep_first all_paths :
  let st := foldl keep_first ([], ∅) all_paths in
  (∀ key, key ∈ st.2 ↔ key ∈ join_key <$> st.1)
  ∧ NoDup (join_key <$> st.1)
  ∧ (∀ key, key ∈ join_key <$> st.1 ↔ key ∈ join_key <$> all_paths)
  ∧ sublist st.1 all_paths
  ∧ (∀ step, step ∈ st.1 →
       ∃ before after, all_paths = before ++ step :: after
                       ∧ join_key step ∉ join_key <$> before).
Proof.
  induction all_paths as [|step all_paths IH] using rev_ind; simpl.
  - split; [set_solver|]. split; [apply NoDup_nil_2|].
    split; [done|]. split; [done|]. intros s Hs. by apply elem_of_nil in Hs.
  - rewrite foldl_snoc.
    destruct (foldl keep_first ([], ∅) all_paths) as [unique seen].
    simpl in *. destruct IH as (Hseen & Hnd & Hkeys & Hsub & Hfirst).
    destruct (decide (join_key step ∈ seen)) as [Hin|Hnin]; simpl.
    + split; [done|]. split; [done|]. split; [|split].
      * intros key. rewrite Hkeys, fmap_app, elem_of_app.
        split; [tauto|]. intros [?|Hk%list_elem_of_singleton]; [done|].
        subst key. by apply Hkeys, Hseen.
      * by apply sublist_inserts_r.
      * intros s (before & after & -> & ?)%Hfirst.
        exists before, (after ++ [step]).
        by rewrite <-(assoc_L (++)).
    + assert (join_key step ∉ join_key <$> all_paths) as Hnew
        by (by rewrite <-Hkeys, <-Hseen).
      split; [|split; [|split; [|split]]].
      * intros key. rewrite elem_of_union, elem_of_singleton, Hseen.
        rewrite fmap_app, elem_of_app. simpl.
        rewrite list_elem_of_singleton. tauto.
      * rewrite fmap_app. apply NoDup_app. split; [done|].
        split; [|apply NoDup_singleton].
        intros key Hk ->%list_elem_of_singleton. by apply Hnin, Hseen.
      * intros key. rewrite !fmap_app, !elem_of_app, Hkeys. tauto.
      * by apply sublist_app.
      * intros s [Hs|Hs%list_elem_of_singleton]%elem_of_app.
        -- destruct (Hfirst s Hs) as (before & after & -> & ?).
           exists before, (after ++ [step]).
           by rewrite <-(assoc_L (++)).
        -- subst s. by exists all_paths, [].
Qed.
End dedup.

Section synthesis_props.
Context `{TableSet}.
Implicit Types (graph : RelationshipGraph) (conn : Catalog).

(** When no joined table gives a non-empty path the scan ends with a
    value that [if not path] rejects. *)
Lemma first_path_falsy graph target js path0 :
  falsy path0 = true →
  (∀ j, j ∈ js →
     ∃ path, find_path_between_tables graph j target = Done path
             ∧ falsy path = true) →
  ∃ path, first_path graph target js path0 = Done path
          ∧ falsy path = true.
Proof.
  revert path0. induction js as [|j js IH]; intros path0 H0 Hjs.
  - by exists path0.
  - simpl. destruct (Hjs j) as (p & -> & Hp); [by left|]. simpl.
    rewrite Hp. apply IH; [done|]. intros j' ?. apply Hjs. by right.
Qed.

(** A path the scan of the joined tables settles on was returned by the
    path finder for one of them. *)
Lemma first_path_some graph target js path0 step rest :
  first_path graph target js path0 = Done (Some (step :: rest)) →
  path0 = Some (step :: rest)
  ∨ ∃ j, j ∈ js
         ∧ find_path_between_tables graph j target
           = Done (Some (step :: rest)).
Proof.
  revert path0. induction js as [|j js IH]; intros path0; simpl.
  - intros [= ->]. by left.
  - destruct (find_path_between_tables graph j target) as [p| |] eqn:Hp;
      simpl; [|done|done].
    destruct (falsy p) eqn:Hf.
    + intros [->|(j' & ? & ?)]%IH; [done|]. right. exists j'.
      split; [by right|done].
    + intros [= ->]. right. exists j. split; [by left|done].
Qed.

Lemma connect_targets_app graph pre post joined acc :
  connect_targets graph (pre ++ post) joined acc =
    r ← connect_targets graph pre joined acc;
    match r with
    | inl failed => Done (inl failed)
    | inr (joined', acc') => connect_targets graph post joined' acc'
    end.
Proof.
  revert joined acc. induction pre as [|t pre IH]; intros joined acc; [done|].
  simpl. destruct (first_path graph t (tset_iter joined) None)
    as [[[|s p]|]| |]; simpl; first [done|apply IH].
Qed.

(** When every target was connected, the gathered joins extend the ones
    there were and some join enters each target. *)
Lemma connect_targets_done graph targets joined acc joined' all_paths :
  connect_targets graph targets joined acc
    = Done (inr (joined', all_paths)) →
  (∃ more, all_paths = acc ++ more)
  ∧ ∀ t, t ∈ targets → ∃ step, step ∈ all_paths ∧ s_to step = t.
Proof.
  revert joined acc.
  induction targets as [|t targets IH]; intros joined acc; simpl.
  - intros [= <- <-]. split; [exists []; by rewrite app_nil_r|].
    intros t Ht. by apply elem_of_nil in Ht.
  - destruct (first_path graph t (tset_iter joined) None)
      as [[[|s p]|]| |] eqn:Hfp; simpl; try done.
    intros [[more ->] Hall]%IH. split.
    + exists ((s :: p) ++ more). by rewrite (assoc_L (++)).
    + intros t' [->|Ht']%elem_of_cons; [|by apply Hall].
      apply first_path_some in Hfp as [?|(j & _ & Hj)]; [done|].
      destruct (find_path_links _ _ _ _ Hj) as (_ & Hto & _); [done|].
      destruct (last (s :: p)) as [final|] eqn:Hlast;
        [|by apply last_None in Hlast].
      rewrite (path_end_last _ _ _ Hlast) in Hto.
      exists final. split; [|done].
      apply elem_of_app. left. apply elem_of_app. right.
      destruct (last_Some (s :: p) final) as [[l' ->] _]; [done|].
      set_solver.
Qed.

Lemma first_path_returns graph target js path0 :
  adjacency_closed (adjacency graph) →
  ∃ path, first_path graph target js path0 = Done path.
Proof.
  intros Hc. revert path0. induction js as [|j js IH]; intros path0.
  - by exists path0.
  - simpl. destruct (find_path_returns graph j target Hc) as [p ->].
    simpl. destruct (falsy p); [apply IH|by exists p].
Qed.

Lemma connect_targets_returns graph targets joined acc :
  adjacency_closed (adjacency graph) →
  ∃ r, connect_targets graph targets joined acc = Done r.
Proof.
  intros Hc. revert joined acc.
  induction targets as [|t targets IH]; intros joined acc; simpl.
  - by eexists.
  - destruct (first_path_returns graph t (tset_iter joined) None Hc)
      as [p ->]. simpl.
    destruct p as [[|s p]|]; [by eexists|apply IH|by eexists].
Qed.

(** [generate_join_query] returns a result for every catalog and every
    list of tables: nothing is raised and its loops end. *)
Lemma generate_join_query_returns conn tables select_all :
  ∃ r, generate_join_query conn tables select_all = Done r.
Proof.
  destruct tables as [|base [|target rest]]; [by eexists..|].
  unfold generate_join_query.
  destruct (connect_targets_returns (build_relationship_graph conn)
              (target :: rest) (tset_singleton base) []
              (build_graph_closed conn)) as [r ->].
  simpl. destruct r as [[? ?]|[? ?]]; by eexists.
Qed.

Lemma generate_join_query_two conn base target rest select_all :
  let tables := base :: target :: rest in
  generate_join_query conn tables select_all =
    r ← connect_targets (build_relationship_graph conn) (target :: rest)
          (tset_singleton base) [];
    match r with
    | inl (target_table, all_paths) =>
        Done {| gq_success := false;
                gq_sql := None;
                gq_explanation :=
                  "Cannot find path from " +:+ base +:+ " to " +:+
                  target_table;
                gq_paths := all_paths |}
    | inr (_, all_paths) =>
        Done {| gq_success := true;
                gq_sql := Some (str_join nl
                  (select_clause_of tables select_all ::
                   ("FROM " +:+ base) ::
                   (join_line <$> unique_joins_of all_paths)));
                gq_explanation :=
                  "Generated JOIN connecting " +:+
                  pretty (length tables) +:+ " tables using " +:+
                  pretty (length (unique_joins_of all_paths)) +:+
                  " relationships";
                gq_paths := unique_joins_of all_paths |}
    end.
Proof. reflexivity. Qed.

(** A query that succeeded came from a list of at least two tables all of
    whose targets were connected. *)
Lemma generate_join_query_success conn tables select_all r :
  generate_join_query conn tables select_all = Done r →
  gq_success r = true ∨ is_Some (gq_sql r) →
  ∃ base targets joined all_paths,
    tables = base :: targets
    ∧ connect_targets (build_relationship_graph conn) targets
        (tset_singleton base) [] = Done (inr (joined, all_paths))
    ∧ r = {| gq_success := true;
             gq_sql := Some (str_join nl
               (select_clause_of tables select_all ::
                ("FROM " +:+ base) ::
                (join_line <$> unique_joins_of all_paths)));
             gq_explanation :=
               "Generated JOIN connecting " +:+
               pretty (length tables) +:+ " tables using " +:+
               pretty (length (unique_joins_of all_paths)) +:+
               " relationships";
             gq_paths := unique_joins_of all_paths |}.
Proof.
  destruct tables as [|base [|target rest]].
  - intros [= <-] [?|[? ?]]; done.
  - intros [= <-] [?|[? ?]]; done.
  - rewrite generate_join_query_two.
    destruct (connect_targets _ _ _ _) as [[[t a]|[j a]]| |] eqn:Hc;
      simpl; try done.
    + intros [= <-] [?|[? ?]]; done.
    + intros [= <-] _. by exists base, (target :: rest), j, a.
Qed.
End synthesis_props.

(** C6 (no duplicate joins): when [generate_join_query] succeeds, the joins
    it returns, one per [JOIN] line of its SQL, have pairwise different
    [(from, to, from_column, to_column)] keys; they are the accumulated
    steps with later repetitions of a key left out, in the order the steps
    were accumulated: a subsequence of them that has every key, each
    returned join being the first accumulated step with its key. *)
Theorem generate_join_query_dedup `{TableSet} (conn : Catalog)
    (tables : list string) (select_all : bool) (r : JoinQuery) :
  generate_join_query conn tables select_all = Done r →
  gq_success r = true →
  ∃ base targets joined all_paths,
    tables = base :: targets
    ∧ connect_targets (build_relationship_graph conn) targets
        (tset_singleton base) [] = Done (inr (joined, all_paths))
    ∧ gq_sql r = Some (str_join nl
        (select_clause_of tables select_all :: ("FROM " +:+ base) ::
         (join_line <$> gq_paths r)))
    ∧ NoDup (join_key <$> gq_paths r)
    ∧ sublist (gq_paths r) all_paths
    ∧ (∀ step, step ∈ all_paths → join_key step ∈ join_key <$> gq_paths r)
    ∧ (∀ step, step ∈ gq_paths r →
         ∃ before after, all_paths = before ++ step :: after
                         ∧ join_key step ∉ join_key <$> before).
Proof.
  intros Hr Hs.
  destruct (generate_join_query_success conn tables select_all r Hr)
    as (base & targets & joined & all_paths & -> & Hc & ->); [by left|].
  exists base, targets, joined, all_paths. simpl.
  destruct (foldl_keep_first all_paths) as (_ & Hnd & Hkeys & Hsub & Hfirst).
  repeat split; try done.
  intros step Hin. apply Hkeys. by apply list_elem_of_fmap_2.
Qed.

Lemma generate_join_query_dedup_witness :
  ∃ r, generate_join_query shop_catalog
         ["order_items"; "customers"; "orders"] false = Done r
       ∧ gq_success r = true
       ∧ length (gq_paths r) = 2
       ∧ NoDup (join_key <$> gq_paths r).
Proof.
  eexists. split; [vm_compute; reflexivity|]. split; [reflexivity|].
  split; [reflexivity|].
  match goal with
  | |- NoDup (join_key <$> gq_paths ?r) =>
      destruct (@generate_join_query_dedup insertion_ordered_set
                  shop_catalog ["order_items"; "customers"; "orders"]
                  false r)
        as (_ & _ & _ & _ & _ & _ & _ & Hnd & _);
        [vm_compute; reflexivity|reflexivity|exact Hnd]
  end.
Defined.

(** C8 (unreachable target): if the targets before [t] were connected and
    the path finder answers [None] (or nothing but the empty path) from
    every table joined by then, the whole query fails with
    [success = False], no SQL, the text
    [Cannot find path from <base> to <t>] and the joins gathered before
    [t]; and whenever any SQL is returned the query succeeded, its [FROM]
    line names the base table and every other requested table is entered
    by one of its [JOIN] lines. *)
Theorem generate_join_query_unreachable `{TableSet} (conn : Catalog)
    (select_all : bool) :
  let graph := build_relationship_graph conn in
  (∀ base pre t post joined acc,
     connect_targets graph pre (tset_singleton base) []
       = Done (inr (joined, acc)) →
     (∀ j, j ∈ tset_iter joined →
        find_path_between_tables graph j t = Done None
        ∨ find_path_between_tables graph j t = Done (Some [])) →
     generate_join_query conn (base :: pre ++ t :: post) select_all =
       Done {| gq_success := false;
               gq_sql := None;
               gq_explanation :=
                 "Cannot find path from " +:+ base +:+ " to " +:+ t;
               gq_paths := acc |})
  ∧ (∀ tables r sql,
       generate_join_query conn tables select_all = Done r →
       gq_sql r = Some sql →
       gq_success r = true
       ∧ ∃ base targets,
           tables = base :: targets
           ∧ sql = str_join nl
               (select_clause_of tables select_all :: ("FROM " +:+ base) ::
                (join_line <$> gq_paths r))
           ∧ ∀ t, t ∈ targets →
                  ∃ step, step ∈ gq_paths r ∧ s_to step = t).
Proof.
  intros graph. split.
  - intros base pre t post joined acc Hpre Hnone.
    assert (connect_targets graph (pre ++ t :: post) (tset_singleton base) []
            = Done (inl (t, acc))) as Hc.
    { rewrite connect_targets_app, Hpre. simpl.
      destruct (first_path_falsy graph t (tset_iter joined) None eq_refl)
        as (p & -> & Hp).
      - intros j Hj. destruct (Hnone j Hj) as [->| ->]; by eexists.
      - by destruct p as [[|? ?]|]. }
    destruct (pre ++ t :: post) as [|target rest] eqn:E.
    + by destruct pre.
    + rewrite generate_join_query_two. fold graph. by rewrite Hc.
  - intros tables r sql Hr Hsql.
    destruct (generate_join_query_success conn tables select_all r Hr)
      as (base & targets & joined & all_paths & -> & Hc & ->);
      [right; by rewrite Hsql|].
    simpl in *. split; [done|]. exists base, targets.
    split; [done|]. split; [congruence|].
    intros t Ht.
    destruct (connect_targets_done _ _ _ _ _ _ Hc) as [_ Hall].
    destruct (Hall t Ht) as (step & Hin & <-).
    destruct (foldl_keep_first all_paths) as (_ & _ & Hkeys & _).
    assert (join_key step ∈ join_key <$> unique_joins_of all_paths) as Hk
      by (apply Hkeys; by apply list_elem_of_fmap_2).
    apply list_elem_of_fmap in Hk as (step' & Hk & Hin').
    exists step'. split; [done|]. by injection Hk.
Qed.

Lemma generate_join_query_unreachable_witness :
  generate_join_query shop_catalog ["orders"; "customers"; "products"] false
  = Done {| gq_success := false;
            gq_sql := None;
            gq_explanation := "Cannot find path from orders to products";
            gq_paths := [mk_step "orders" (forward_edge fk_orders_customers)]
         |}.
Proof.
  apply (proj1 (@generate_join_query_unreachable insertion_ordered_set
                  shop_catalog false)
           "orders" ["customers"] "products" []
           ["orders"; "customers"]).
  - vm_compute. reflexivity.
  - intros j Hj. simpl in Hj. left.
    apply elem_of_cons in Hj as [->|Hj]; [vm_compute; reflexivity|].
    apply list_elem_of_singleton in Hj as ->. vm_compute. reflexivity.
Defined.

Section duplicate_request.
Context `{TableSet}.

(** Asking for the same table twice fails on every catalog: the only
    joined table is the target itself, for which the path finder has the
    empty path or [None], and [if not path] takes either for no path. *)
Lemma generate_join_query_twice conn a select_all :
  generate_join_query conn [a; a] select_all =
    Done {| gq_success := false;
            gq_sql := None;
            gq_explanation :=
              "Cannot find path from " +:+ a +:+ " to " +:+ a;
            gq_paths := [] |}.
Proof.
  rewrite generate_join_query_two. simpl.
  rewrite tset_iter_singleton. simpl. rewrite find_path_refl.
  by destruct (adjacency (build_relationship_graph conn) !! a).
Qed.
End duplicate_request.

(** C10 (a table requested twice): there are a catalog and a table [a]
    that is a node of its graph, here [orders] of the shop, for which the
    path finder returns the empty path from [a] to [a] and yet
    [generate_join_query] on [[a; a]] reports [success = False] with
    [Cannot find path from a to a], no SQL and no joins, whatever order the
    joined set is read in. *)
Theorem generate_join_query_duplicate_fails `{TableSet} :
  ∃ conn a,
    a ∈ nodes (build_relationship_graph conn)
    ∧ find_path_between_tables (build_relationship_graph conn) a a
      = Done (Some [])
    ∧ ∀ select_all,
        generate_join_query conn [a; a] select_all =
          Done {| gq_success := false;
                  gq_sql := None;
                  gq_explanation :=
                    "Cannot find path from " +:+ a +:+ " to " +:+ a;
                  gq_paths := [] |}.
Proof.
  exists shop_catalog, "orders". split; [|split].
  - apply elem_of_nodes. vm_compute. by eexists.
  - vm_compute. reflexivity.
  - intros select_all. apply generate_join_query_twice.
Qed.

(** * Further properties of the analyzer *)

(** ** The adjacency lists, in full *)

Section adjacency_lists.
Implicit Types (adj : gmap string (list Edge)) (fk : ForeignKey).

Lemma edges_of_snoc k pre fk :
  edges_of k (pre ++ [fk]) =
    edges_of k pre ++
    (if decide (fk_from_table fk = k) then [forward_edge fk] else []) ++
    (if decide (fk_to_table fk = k) then [reverse_edge fk] else []).
Proof. unfold edges_of. rewrite bind_app, bind_singleton. done. Qed.

Lemma default_edge_group l : default [] (edge_group l) = l.
Proof. by destruct l. Qed.

Lemma foldl_adjacency_spec fks st pre :
  (∀ k, st.1 !! k = edge_group (edges_of k pre)) →
  ∀ k, (foldl add_foreign_key st fks).1 !! k
       = edge_group (edges_of k (pre ++ fks)).
Proof.
  revert st pre. induction fks as [|fk fks IH]; intros st pre Hst k; simpl.
  - by rewrite app_nil_r.
  - replace (pre ++ fk :: fks) with ((pre ++ [fk]) ++ fks)
      by by rewrite <-(assoc_L (++)).
    apply IH. clear k. intros k.
    rewrite add_foreign_key_adj, lookup_step_adj, edges_of_snoc, Hst. simpl.
    destruct (decide (fk_from_table fk = k)), (decide (fk_to_table fk = k));
      simpl; rewrite ?default_edge_group, ?app_nil_r, <-?(assoc_L (++));
      try done; by destruct (edges_of k pre).
Qed.

Lemma elem_of_edges_of k fks edge :
  edge ∈ edges_of k fks ↔
  ∃ fk, fk ∈ fks
        ∧ ((fk_from_table fk = k ∧ edge = forward_edge fk)
           ∨ (fk_to_table fk = k ∧ edge = reverse_edge fk)).
Proof.
  unfold edges_of. rewrite list_elem_of_bind. split.
  - intros (fk & Hin & Hfk). exists fk. split; [done|].
    apply elem_of_app in Hin as [Hin|Hin]; case_decide;
      try (by apply elem_of_nil in Hin);
      apply list_elem_of_singleton in Hin; auto.
  - intros (fk & Hfk & [[<- ->]|[<- ->]]); exists fk; (split; [|done]);
      apply elem_of_app; [left|right]; rewrite decide_True by done;
      apply list_elem_of_here.
Qed.
End adjacency_lists.

Lemma build_graph_lookup conn k :
  adjacency (build_relationship_graph conn) !! k
  = edge_group (edges_of k (get_foreign_keys conn)).
Proof.
  rewrite build_graph_adjacency. unfold build_adjacency.
  rewrite (foldl_adjacency_spec _ (∅, ∅) []); [done|].
  intros k'. simpl. by rewrite lookup_empty.
Qed.

(** X1: the adjacency list of a table is exactly the edges its foreign
    keys give it, in the order of the foreign-key list (forward edges of
    the keys that leave it, reverse edges of the keys that arrive), and a
    table without any is no key of the map. *)
Theorem build_graph_adjacency_lists (conn : Catalog) (k : string) :
  adjacency (build_relationship_graph conn) !! k =
    match edges_of k (get_foreign_keys conn) with
    | [] => None
    | edges => Some edges
    end.
Proof.
  rewrite build_graph_lookup.
  by destruct (edges_of k (get_foreign_keys conn)).
Qed.

Lemma build_graph_key_iff conn k :
  is_Some (adjacency (build_relationship_graph conn) !! k) ↔
  ∃ fk, fk ∈ get_foreign_keys conn
        ∧ (fk_from_table fk = k ∨ fk_to_table fk = k).
Proof.
  rewrite build_graph_lookup. unfold edge_group.
  destruct (edges_of k (get_foreign_keys conn)) as [|edge edges] eqn:E.
  - split; [by intros [? ?]|]. intros (fk & Hin & Hk).
    assert (∃ e, e ∈ edges_of k (get_foreign_keys conn)) as [e He].
    { destruct Hk as [Hk|Hk]; eexists; apply elem_of_edges_of; exists fk;
        (split; [done|]); [left|right]; done. }
    rewrite E in He. by apply elem_of_nil in He.
  - split; [intros _|by eauto].
    assert (edge ∈ edges_of k (get_foreign_keys conn)) as He
      by (rewrite E; by left).
    apply elem_of_edges_of in He as (fk & Hin & [[? _]|[? _]]);
      exists fk; auto.
Qed.

Lemma build_graph_lookup_Some conn k edges :
  adjacency (build_relationship_graph conn) !! k = Some edges →
  edges = edges_of k (get_foreign_keys conn).
Proof.
  rewrite build_graph_lookup. unfold edge_group.
  destruct (edges_of k (get_foreign_keys conn)); congruence.
Qed.

Lemma build_graph_lookup_elem conn k edge :
  edge ∈ edges_of k (get_foreign_keys conn) →
  adjacency (build_relationship_graph conn) !! k
  = Some (edges_of k (get_foreign_keys conn)).
Proof.
  rewrite build_graph_lookup. unfold edge_group. intros Hin.
  destruct (edges_of k (get_foreign_keys conn)); [|done].
  by apply elem_of_nil in Hin.
Qed.

(** The built graph can be walked in both directions. *)
Lemma build_graph_adjacency_symmetric conn :
  adjacency_symmetric (adjacency (build_relationship_graph conn)).
Proof.
  intros u edges edge Hu Hin.
  apply build_graph_lookup_Some in Hu as ->.
  apply elem_of_edges_of in Hin as (fk & Hfk & [[<- ->]|[<- ->]]); simpl.
  - assert (reverse_edge fk ∈ edges_of (fk_to_table fk) (get_foreign_keys conn))
      as Hr by (apply elem_of_edges_of; exists fk; auto).
    exists (edges_of (fk_to_table fk) (get_foreign_keys conn)), (reverse_edge fk).
    split; [by eapply build_graph_lookup_elem|done].
  - assert (forward_edge fk
            ∈ edges_of (fk_from_table fk) (get_foreign_keys conn))
      as Hf by (apply elem_of_edges_of; exists fk; auto).
    exists (edges_of (fk_from_table fk) (get_foreign_keys conn)),
      (forward_edge fk).
    split; [by eapply build_graph_lookup_elem|done].
Qed.

#[local] Instance str_le_total : Total str_le.
Proof. intros a b. apply String.leb_total. Qed.

(** X2: the node list of the built graph is in ascending order, names no
    table twice, and holds exactly the tables that some foreign key leaves
    or arrives at. *)
Theorem build_graph_nodes (conn : Catalog) :
  let ns := nodes (build_relationship_graph conn) in
  Sorted (λ a b, String.leb a b = true) ns
  ∧ NoDup ns
  ∧ ∀ k, k ∈ ns ↔
         ∃ fk, fk ∈ get_foreign_keys conn
               ∧ (fk_from_table fk = k ∨ fk_to_table fk = k).
Proof.
  split; [|split].
  - unfold build_relationship_graph.
    destruct (build_adjacency (get_foreign_keys conn)) as [adj ns]. simpl.
    apply (Sorted_merge_sort str_le).
  - unfold build_relationship_graph.
    destruct (build_adjacency (get_foreign_keys conn)) as [adj ns]. simpl.
    unfold sorted_nodes. rewrite merge_sort_Permutation. apply NoDup_elements.
  - intros k. rewrite elem_of_nodes. apply build_graph_key_iff.
Qed.

(** ** Walks *)

Section walks.
Variable adj : gmap string (list Edge).

Lemma walk_snoc u v k edges edge :
  walk adj u v k → adj !! v = Some edges → edge ∈ edges →
  walk adj u (e_to edge) (S k).
Proof.
  intros Hw Hv Hin. induction Hw as [u|u es e v k Hu He Hw IH].
  - eapply walk_edge; [done..|]. apply walk_here.
  - eapply walk_edge; [done..|]. by apply IH.
Qed.

Lemma walk_app u v w k m :
  walk adj u v k → walk adj v w m → walk adj u w (k + m).
Proof.
  intros Hw1 Hw2. induction Hw1 as [u|u es e v k Hu He Hw IH]; [done|].
  simpl. eapply walk_edge; [done..|]. by apply IH.
Qed.

Lemma walk_rev u v k :
  adjacency_symmetric adj → walk adj u v k → walk adj v u k.
Proof.
  intros Hsym Hw. induction Hw as [u|u es e v k Hu He Hw IH].
  - apply walk_here.
  - destruct (Hsym u es e Hu He) as (es' & e' & Hes' & He' & <-).
    by eapply walk_snoc.
Qed.

Lemma walk_end_key u v k :
  adjacency_closed adj → walk adj u v (S k) → is_Some (adj !! v).
Proof.
  intros Hc. revert u. induction k as [|k IH]; intros u Hw;
    inversion Hw as [|? es e ? ? Hu He Hw']; subst.
  - inversion Hw'; subst. by eapply Hc.
  - by eapply IH.
Qed.

Lemma last_cons_default (l : list string) a d :
  List.last (a :: l) d = List.last l a.
Proof.
  revert a d. induction l as [|x l IH]; intros a d; [done|].
  change (List.last (a :: x :: l) d) with (List.last (x :: l) d).
  by rewrite (IH x d), (IH x a).
Qed.

Lemma path_end_cons start step path :
  path_end start (step :: path) = path_end (s_to step) path.
Proof. unfold path_end. rewrite fmap_cons. apply last_cons_default. Qed.

(** A linked path made of edges is a walk. *)
Lemma links_walk start path :
  links start path → path_in_graph adj path →
  walk adj start (path_end start path) (length path).
Proof.
  revert start. induction path as [|step path IH]; intros start.
  - intros _ _. apply walk_here.
  - intros [Hfrom Hl] Hg. rewrite path_end_cons. simpl.
    destruct (Hg step) as (edges & edge & Hk & Hin & Hstep); [by left|].
    rewrite Hfrom in Hk.
    assert (s_to step = e_to edge) as Hto by by rewrite Hstep.
    eapply walk_edge; [done..|]. rewrite <-Hto. apply IH; [done|].
    intros s Hs. apply Hg. by right.
Qed.

(** Every table a linked path of edges enters can be walked to. *)
Lemma links_connected start path x :
  links start path → path_in_graph adj path → x ∈ s_to <$> path →
  connected adj start x.
Proof.
  revert start. induction path as [|step path IH]; intros start.
  - intros _ _ Hx. by apply elem_of_nil in Hx.
  - intros [Hfrom Hl] Hg Hx.
    destruct (Hg step) as (edges & edge & Hk & Hin & Hstep); [by left|].
    rewrite Hfrom in Hk.
    assert (s_to step = e_to edge) as Hto by by rewrite Hstep.
    rewrite fmap_cons in Hx. apply elem_of_cons in Hx as [->|Hx].
    + exists 1. eapply walk_edge; [done..|]. rewrite Hto. apply walk_here.
    + destruct (IH (s_to step) Hl) as [k Hw]; [|done|].
      { intros s Hs. apply Hg. by right. }
      exists (S k). eapply walk_edge; [done..|]. by rewrite <-Hto.
Qed.
End walks.

(** ** What the path finder returns *)

Section bfs_sound.
Variables (adj : gmap string (list Edge)) (start end_table : string).

(** The returned path is made of edges of the graph and never comes back
    to [start]. *)
Lemma bfs_path_in_graph fuel (queue : Queue) (visited : gset string) path :
  start ∈ visited →
  (∀ t p, (t, p) ∈ queue →
     path_in_graph adj p ∧ start ∉ s_to <$> p) →
  bfs fuel adj end_table queue visited = Done (Some path) →
  path_in_graph adj path ∧ start ∉ s_to <$> path.
Proof.
  revert queue visited.
  induction fuel as [|fuel IH]; intros queue visited Hs Hq; [done|].
  simpl. destruct queue as [|[cur p] queue]; [done|].
  destruct (adj !! cur) as [edges|] eqn:Hcur; [|done].
  destruct (Hq cur p ltac:(by left)) as [Hg Hns].
  assert (∀ edge, edge ∈ edges → e_to edge ≠ start →
            path_in_graph adj (p ++ [mk_step cur edge])
            ∧ start ∉ s_to <$> p ++ [mk_step cur edge]) as Hnew.
  { intros edge Hin Hne. split.
    - intros step [Hstep|Hstep]%elem_of_app; [by apply Hg|].
      apply list_elem_of_singleton in Hstep as ->.
      exists edges, edge. by repeat split.
    - rewrite fmap_app, elem_of_app. intros [?|Hx]; [done|].
      apply list_elem_of_singleton in Hx. simpl in Hx. congruence. }
  destruct (scan_edges _ _ _ _ _ _) as [np|[visited' queue']] eqn:Hscan.
  - intros [= <-].
    apply scan_edges_inl in Hscan as (Hnv & edge & Hin & Hto & ->).
    apply Hnew; [done|]. congruence.
  - apply scan_edges_inr in Hscan as (new & -> & Hvis & Hfresh & _).
    apply IH; [apply Hvis; by left|].
    intros t p' [Hin|Hin]%elem_of_app; [apply (Hq t p'); by right|].
    destruct (Hfresh t p' Hin) as (Hnv & _ & edge & Hedge & -> & ->).
    apply Hnew; [done|]. congruence.
Qed.

(** When [end_table] is not visited yet, the inner loop returns at the
    first edge that leads to it. *)
Lemma scan_edges_first cur path before edge after visited (queue : Queue) :
  end_table ∉ visited →
  e_to edge = end_table →
  (∀ e, e ∈ before → e_to e ≠ end_table) →
  scan_edges cur end_table path (before ++ edge :: after) visited queue
  = inl (path ++ [mk_step cur edge]).
Proof.
  revert visited queue.
  induction before as [|e before IH]; intros visited queue Hv Hto Hb; simpl.
  - rewrite decide_False by congruence. by rewrite decide_True.
  - assert (e_to e ≠ end_table) as Hne by (apply Hb; by left).
    assert (∀ e', e' ∈ before → e_to e' ≠ end_table) as Hb'
      by (intros e' ?; apply Hb; by right).
    destruct (decide (e_to e ∈ visited)); [by apply IH|].
    rewrite decide_False by done. apply IH; [set_solver|done..].
Qed.
End bfs_sound.

(** A returned path is made of edges, is a walk of as many edges, and
    does not come back to its start. *)
Lemma find_path_edges graph start_table end_table path :
  find_path_between_tables graph start_table end_table = Done (Some path) →
  path_in_graph (adjacency graph) path
  ∧ walk (adjacency graph) start_table end_table (length path)
  ∧ start_table ∉ s_to <$> path.
Proof.
  intros Hr.
  assert (path_in_graph (adjacency graph) path
          ∧ (start_table ∉ s_to <$> path)
          ∧ (path = [] → start_table = end_table)) as (Hg & Hns & Hnil).
  { revert Hr. unfold find_path_between_tables. case_bool_decide; [done|].
    case_decide as Hne.
    - intros [= <-]. split; [|split]; [|apply not_elem_of_nil|done].
      intros s Hs. by apply elem_of_nil in Hs.
    - intros Hr.
      assert (queue_wf start_table {[start_table]} [(start_table, [])])
        as Hwf.
      { intros t p [= -> ->]%list_elem_of_singleton. simpl.
        repeat split; [apply NoDup_nil_2|].
        intros v Hv. by apply elem_of_nil in Hv. }
      destruct (bfs_path_wf _ _ _ _ _ _ _ Hwf Hr) as (_ & _ & _ & Hnn).
      apply (bfs_path_in_graph _ start_table) in Hr as [? ?];
        [by repeat split|set_solver|].
      intros t p [= -> ->]%list_elem_of_singleton.
      split; [|apply not_elem_of_nil].
      intros s Hs. by apply elem_of_nil in Hs. }
  split; [done|]. split; [|done].
  destruct path as [|s p]; [rewrite Hnil by done; apply walk_here|].
  destruct (find_path_links _ _ _ _ Hr) as (Hl & <- & _); [done|].
  by apply links_walk.
Qed.

(** C1 (shortest path): on the graph built from any catalog, for tables
    [start_table] and [end_table] that are keys of the adjacency map, if
    [k] edges of the adjacency lists lead from one to the other then
    [find_path_between_tables] returns a path from [start_table] to
    [end_table]: its steps follow one another from [start_table] and
    arrive at [end_table], each is built from an edge of the adjacency
    list of the table it leaves, so the path is a walk of as many edges as
    it has steps; and it has at most [k] steps. *)
Theorem find_path_shortest (conn : Catalog) (start_table end_table : string)
    (k : nat) :
  let graph := build_relationship_graph conn in
  is_Some (adjacency graph !! start_table) →
  is_Some (adjacency graph !! end_table) →
  walk (adjacency graph) start_table end_table k →
  ∃ path,
    find_path_between_tables graph start_table end_table = Done (Some path)
    ∧ length path ≤ k
    ∧ links start_table path
    ∧ path_end start_table path = end_table
    ∧ (∀ step, step ∈ path →
         ∃ edges edge,
           adjacency graph !! s_from step = Some edges ∧ edge ∈ edges
           ∧ step = mk_step (s_from step) edge)
    ∧ walk (adjacency graph) start_table end_table (length path).
Proof.
  intros graph Hs He Hw.
  destruct (find_path_shortest_closed graph start_table end_table k
              (build_graph_closed conn) Hs He Hw) as (path & Hr & Hle).
  exists path. split; [done|]. split; [done|].
  destruct (find_path_edges _ _ _ _ Hr) as (Hg & Hwalk & _).
  destruct path as [|step rest].
  - inversion Hwalk; subst.
    split; [done|]. split; [done|]. split; [exact Hg|done].
  - destruct (find_path_links _ _ _ _ Hr) as (Hl & Hend & _); [done|].
    split; [done|]. split; [done|]. split; [exact Hg|done].
Qed.

Lemma find_path_shortest_witness :
  ∃ path,
    find_path_between_tables (build_relationship_graph triangle_catalog)
      "a" "c" = Done (Some path)
    ∧ length path ≤ 2
    ∧ links "a" path
    ∧ path_end "a" path = "c"
    ∧ walk (adjacency (build_relationship_graph triangle_catalog))
        "a" "c" (length path).
Proof.
  destruct (find_path_shortest triangle_catalog "a" "c" 2)
    as (path & Hr & Hle & Hl & Hend & _ & Hw).
  - vm_compute. by eexists.
  - vm_compute. by eexists.
  - eapply (walk_edge _ "a" _ (forward_edge fk_a_b)).
    + vm_compute. reflexivity.
    + apply list_elem_of_here.
    + eapply (walk_edge _ "b" _ (forward_edge fk_b_c)).
      * vm_compute. reflexivity.
      * apply list_elem_of_further, list_elem_of_here.
      * apply walk_here.
  - by exists path.
Defined.

(** X3 (soundness): on every graph, each step of a returned path was built
    from an edge in the adjacency list of the table the step leaves, the
    path is a walk of as many edges from [start_table] to [end_table], and
    it never enters [start_table] again. *)
Theorem find_path_sound (graph : RelationshipGraph)
    (start_table end_table : string) (path : JoinPath) :
  find_path_between_tables graph start_table end_table = Done (Some path) →
  (∀ step, step ∈ path →
     ∃ edges edge,
       adjacency graph !! s_from step = Some edges ∧ edge ∈ edges
       ∧ s_to step = e_to edge
       ∧ s_from_column step = e_from_column edge
       ∧ s_to_column step = e_to_column edge
       ∧ s_constraint step = e_constraint edge
       ∧ s_reverse step = default false (e_reverse edge))
  ∧ walk (adjacency graph) start_table end_table (length path)
  ∧ start_table ∉ s_to <$> path.
Proof.
  intros (Hg & Hw & Hns)%find_path_edges. split; [|done].
  intros step Hstep.
  destruct (Hg step Hstep) as (edges & edge & Hk & Hin & ->).
  exists edges, edge. by repeat split.
Qed.

Lemma find_path_sound_witness :
  ∃ path,
    find_path_between_tables (build_relationship_graph triangle_catalog)
      "b" "a" = Done (Some path)
    ∧ walk (adjacency (build_relationship_graph triangle_catalog))
        "b" "a" (length path)
    ∧ "b" ∉ s_to <$> path.
Proof.
  eexists. split; [vm_compute; reflexivity|].
  match goal with
  | |- walk _ _ _ (length ?p) ∧ _ =>
      destruct (find_path_sound (build_relationship_graph triangle_catalog)
                  "b" "a" p) as (_ & Hw & Hn);
        [vm_compute; reflexivity|by split]
  end.
Defined.

(** A non-empty path is returned exactly between different, connected
    tables of a graph that is closed under its edges. *)
Lemma find_path_nonempty_iff graph a b :
  adjacency_closed (adjacency graph) →
  (∃ step rest,
     find_path_between_tables graph a b = Done (Some (step :: rest)))
  ↔ a ≠ b ∧ connected (adjacency graph) a b.
Proof.
  intros Hc. split.
  - intros (step & rest & Hr).
    destruct (find_path_edges _ _ _ _ Hr) as (_ & Hw & _).
    split; [|by eexists]. intros ->. by rewrite find_path_refl in Hr;
      destruct (adjacency graph !! b).
  - intros [Hne [k Hw]]. destruct k as [|k]; [by inversion Hw|].
    assert (is_Some (adjacency graph !! a)) as Ha
      by (inversion Hw; by subst).
    assert (is_Some (adjacency graph !! b)) as Hb
      by by eapply walk_end_key.
    destruct (find_path_shortest_closed graph a b _ Hc Ha Hb Hw)
      as (path & Hr & _).
    destruct path as [|step rest]; [|by eauto].
    destruct (find_path_edges _ _ _ _ Hr) as (_ & Hw0 & _).
    by inversion Hw0.
Qed.

(** X4 (no path): on a built graph the path finder always returns a
    result, raising nothing and ending its loop, and the result is [None]
    exactly when one of the two tables is no key of the adjacency map or
    no walk leads from the first to the second. *)
Theorem find_path_none_iff (conn : Catalog) (start_table end_table : string) :
  let graph := build_relationship_graph conn in
  (∃ r, find_path_between_tables graph start_table end_table = Done r)
  ∧ (find_path_between_tables graph start_table end_table = Done None
     ↔ adjacency graph !! start_table = None
       ∨ adjacency graph !! end_table = None
       ∨ ¬ connected (adjacency graph) start_table end_table).
Proof.
  intros graph. pose proof (build_graph_closed conn) as Hc. fold graph in Hc.
  split; [by apply find_path_returns|].
  split.
  - intros Hr.
    destruct (adjacency graph !! start_table) as [es|] eqn:Hs; [|by left].
    destruct (adjacency graph !! end_table) as [ee|] eqn:He; [|by right; left].
    right; right. intros [k Hw].
    destruct (find_path_shortest_closed graph start_table end_table k Hc)
      as (path & Hp & _); [by rewrite Hs|by rewrite He|done|congruence].
  - intros Hcase.
    destruct (find_path_returns graph start_table end_table Hc) as [r Hr].
    rewrite Hr. destruct r as [path|]; [exfalso|done].
    destruct (find_path_edges _ _ _ _ Hr) as (_ & Hw & _).
    destruct Hcase as [Hn|[Hn|Hn]].
    + revert Hr. unfold find_path_between_tables.
      by rewrite bool_decide_eq_true_2 by by left.
    + revert Hr. unfold find_path_between_tables.
      by rewrite bool_decide_eq_true_2 by by right.
    + apply Hn. by eexists.
Qed.

(** X5 (both directions): on a built graph, if a path is found from [a]
    to [b] then one is found from [b] to [a], with as many steps. *)
Theorem find_path_symmetric (conn : Catalog) (a b : string) (path : JoinPath) :
  let graph := build_relationship_graph conn in
  find_path_between_tables graph a b = Done (Some path) →
  ∃ back,
    find_path_between_tables graph b a = Done (Some back)
    ∧ length back = length path.
Proof.
  intros graph Hr.
  pose proof (build_graph_closed conn) as Hc.
  pose proof (build_graph_adjacency_symmetric conn) as Hsym.
  fold graph in Hc, Hsym.
  assert (is_Some (adjacency graph !! a) ∧ is_Some (adjacency graph !! b))
    as [Ha Hb].
  { revert Hr. unfold find_path_between_tables.
    case_bool_decide as Hk; [done|]. intros _.
    destruct (adjacency graph !! a), (adjacency graph !! b); try done;
      destruct Hk; auto. }
  destruct (find_path_edges _ _ _ _ Hr) as (_ & Hw & _).
  apply walk_rev in Hw; [|done].
  destruct (find_path_shortest_closed graph b a _ Hc Hb Ha Hw)
    as (back & Hback & Hle).
  exists back. split; [done|].
  destruct (find_path_edges _ _ _ _ Hback) as (_ & Hw' & _).
  apply walk_rev in Hw'; [|done].
  destruct (find_path_shortest_closed graph a b _ Hc Ha Hb Hw')
    as (path' & Hp' & Hle').
  assert (path' = path) as -> by congruence. lia.
Qed.

Lemma find_path_symmetric_witness :
  ∃ back,
    find_path_between_tables (build_relationship_graph shop_catalog)
      "customers" "order_items" = Done (Some back)
    ∧ length back = 2.
Proof.
  destruct (find_path_symmetric shop_catalog "order_items" "customers"
              [mk_step "order_items" (forward_edge fk_order_items_orders);
               mk_step "orders" (forward_edge fk_orders_customers)])
    as (back & Hb & Hlen); [vm_compute; reflexivity|].
  by exists back.
Defined.

(** X6 (adjacent tables): between two different keys of the adjacency map,
    when the list of [start_table] has an edge to [end_table], the path
    finder returns the single step built from the first such edge of that
    list. *)
Theorem find_path_direct (graph : RelationshipGraph)
    (start_table end_table : string) (before after : list Edge)
    (edge : Edge) :
  start_table ≠ end_table →
  adjacency graph !! start_table = Some (before ++ edge :: after) →
  is_Some (adjacency graph !! end_table) →
  e_to edge = end_table →
  (∀ e, e ∈ before → e_to e ≠ end_table) →
  find_path_between_tables graph start_table end_table
  = Done (Some [mk_step start_table edge]).
Proof.
  intros Hne Hs [ee He] Hto Hb. unfold find_path_between_tables.
  rewrite bool_decide_eq_false_2 by (intros [?|?]; congruence).
  rewrite decide_False by done. unfold bfs_fuel. simpl. rewrite Hs.
  rewrite (scan_edges_first end_table); [done|set_solver|done..].
Qed.

Lemma find_path_direct_witness :
  find_path_between_tables (build_relationship_graph triangle_catalog)
    "a" "c" = Done (Some [mk_step "a" (forward_edge fk_a_c)]).
Proof.
  apply (find_path_direct (build_relationship_graph triangle_catalog)
           "a" "c" [forward_edge fk_a_b] [] (forward_edge fk_a_c)).
  - discriminate.
  - vm_compute. reflexivity.
  - vm_compute. by eexists.
  - reflexivity.
  - intros e He. apply list_elem_of_singleton in He as ->. discriminate.
Defined.

(** ** When the synthesizers succeed *)

(** X7: on every catalog [suggest_join_pattern] returns a result, and it
    reports success exactly when the two tables differ and a walk of the
    built graph leads from the first to the second; otherwise it carries
    neither a path nor SQL. *)
Theorem suggest_join_pattern_success_iff (conn : Catalog)
    (table1 table2 : string) :
  ∃ r, suggest_join_pattern conn table1 table2 = Done r
       ∧ (sj_success r = true ↔
          table1 ≠ table2
          ∧ connected (adjacency (build_relationship_graph conn))
              table1 table2)
       ∧ (sj_success r = false → sj_path r = None ∧ sj_sql r = None).
Proof.
  pose proof (find_path_nonempty_iff (build_relationship_graph conn)
                table1 table2 (build_graph_closed conn)) as Hiff.
  destruct (find_path_returns (build_relationship_graph conn) table1 table2
              (build_graph_closed conn)) as [path Hp].
  destruct path as [[|step rest]|].
  - rewrite (suggest_join_pattern_not_found _ _ _ _ Hp eq_refl).
    eexists. split; [done|]. simpl. split; [|done].
    split; [done|]. intros (s & p & Hsp)%Hiff. congruence.
  - rewrite (suggest_join_pattern_found _ _ _ _ _ Hp).
    eexists. split; [done|]. simpl. split; [|done].
    split; [|done]. intros _. apply Hiff. eauto.
  - rewrite (suggest_join_pattern_not_found _ _ _ _ Hp eq_refl).
    eexists. split; [done|]. simpl. split; [|done].
    split; [done|]. intros (s & p & Hsp)%Hiff. congruence.
Qed.

Section junction_tables.
Implicit Types (conn : Catalog).

Lemma group_by_table_NoDup fks : NoDup (group_by_table fks).*1.
Proof.
  destruct (foldl_group_spec fks [] []) as [Hnd _];
    [apply NoDup_nil_2|by intros; simpl; rewrite lookup_empty|done].
Qed.

Lemma junction_tables_sublist conn (d : list (string * list ForeignKey)) :
  junction_table <$> (d ≫= junction_of conn) `sublist_of` d.*1.
Proof.
  induction d as [|[t fks] d IH]; [done|].
  rewrite bind_cons, fmap_app, fmap_cons. simpl.
  destruct fks as [|fk0 [|fk1 [|? ?]]]; simpl;
    try (by apply sublist_cons).
  case_bool_decide; simpl; [by apply sublist_skip|by apply sublist_cons].
Qed.
End junction_tables.

(** X8: no table is reported as a junction twice, and every reported
    junction table is the [from_table] of a foreign key. *)
Theorem detect_many_to_many_distinct (conn : Catalog) :
  NoDup (junction_table <$> detect_many_to_many conn)
  ∧ ∀ jc, jc ∈ detect_many_to_many conn →
          ∃ fk, fk ∈ get_foreign_keys conn
                ∧ fk_from_table fk = junction_table jc.
Proof.
  split.
  - apply (sublist_NoDup _ _
             (group_by_table_NoDup (get_foreign_keys conn))).
    apply junction_tables_sublist.
  - intros jc (fk0 & fk1 & Ho & _)%elem_of_detect_many_to_many.
    assert (fk0 ∈ owned (junction_table jc) (get_foreign_keys conn)) as Hin
      by (rewrite Ho; by left).
    apply list_elem_of_filter in Hin as [? ?]. by exists fk0.
Qed.

(** ** The joins of a query, in order *)

Section join_order.
Implicit Types (path acc : JoinPath) (step : JoinStep).

Lemma introduced_app_l base acc path x :
  introduced base acc x → introduced base (acc ++ path) x.
Proof.
  intros [?|?]; [by left|]. right. rewrite fmap_app. apply elem_of_app. auto.
Qed.

Lemma join_order_nil base : join_order base [].
Proof. intros [|? ?] step after Heq; discriminate. Qed.

Lemma join_order_snoc base path step :
  join_order base (path ++ [step])
  ↔ join_order base path ∧ introduced base path (s_from step).
Proof.
  split.
  - intros Ho. split.
    + intros before s after ->. apply (Ho before s (after ++ [step])).
      by rewrite <-(assoc_L (++)).
    + by apply (Ho path step []).
  - intros [Ho Hi] before s after Heq.
    destruct after as [|x after _] using rev_ind.
    + apply (app_inj_tail path before step s) in Heq as [-> ->]. done.
    + change (s :: after ++ [x]) with ((s :: after) ++ [x]) in Heq.
      rewrite (assoc_L (++)) in Heq.
      apply app_inj_tail in Heq as [-> _]. by eapply Ho.
Qed.

(** Appending a linked path that leaves an introduced table keeps the
    order. *)
Lemma join_order_app_links base acc j path :
  join_order base acc → introduced base acc j → links j path →
  join_order base (acc ++ path).
Proof.
  revert acc j. induction path as [|step path IH]; intros acc j Ho Hj.
  - intros _. by rewrite app_nil_r.
  - intros [Hfrom Hl].
    replace (acc ++ step :: path) with ((acc ++ [step]) ++ path)
      by by rewrite <-(assoc_L (++)).
    apply (IH _ (s_to step)); [|right|done].
    + apply join_order_snoc. split; [done|]. by rewrite Hfrom.
    + rewrite fmap_app. apply elem_of_app. right. by left.
Qed.

(** Leaving out later repetitions of a join keeps the order. *)
Lemma unique_joins_join_order base all_paths :
  join_order base all_paths → join_order base (unique_joins_of all_paths).
Proof.
  unfold unique_joins_of.
  induction all_paths as [|step all_paths IH] using rev_ind;
    [intros _; apply join_order_nil|].
  intros [Ho Hi]%join_order_snoc. specialize (IH Ho).
  rewrite foldl_snoc.
  pose proof (foldl_keep_first all_paths) as (Hseen & _ & Hkeys & _).
  destruct (foldl keep_first ([], ∅) all_paths) as [unique seen].
  simpl in *. case_decide; [done|]. simpl.
  apply join_order_snoc. split; [done|].
  destruct Hi as [?|Hin]; [by left|]. right.
  apply list_elem_of_fmap in Hin as (s & Hto & Hs).
  assert (join_key s ∈ join_key <$> unique) as Hk
    by (apply Hkeys; by apply list_elem_of_fmap_2).
  apply list_elem_of_fmap in Hk as (s' & Hk & Hs').
  apply list_elem_of_fmap. exists s'. split; [|done].
  injection Hk as _ Hk _ _. congruence.
Qed.
End join_order.

Section join_order_loop.
Context `{TableSet}.
Implicit Types (graph : RelationshipGraph) (path acc : JoinPath).

(** The tables of a path are added to the joined set, whatever the set
    does with its order. *)
Lemma tset_iter_foldl_add joined path y :
  y ∈ tset_iter (foldl (λ joined step, tset_add (s_to step) joined)
                   joined path)
  ↔ y ∈ tset_iter joined ∨ y ∈ s_to <$> path.
Proof.
  revert joined. induction path as [|step path IH]; intros joined.
  - simpl. rewrite elem_of_nil. tauto.
  - rewrite fmap_cons, elem_of_cons. simpl. rewrite IH, tset_iter_add. tauto.
Qed.

Lemma connect_targets_join_order graph base targets joined acc
    joined' all_paths :
  connect_targets graph targets joined acc
    = Done (inr (joined', all_paths)) →
  join_order base acc →
  (∀ j, j ∈ tset_iter joined → introduced base acc j) →
  join_order base all_paths.
Proof.
  revert joined acc.
  induction targets as [|t targets IH]; intros joined acc; simpl.
  - by intros [= <- <-].
  - destruct (first_path graph t (tset_iter joined) None)
      as [[[|s p]|]| |] eqn:Hfp; simpl; try done.
    intros Hc Ho Hj.
    apply first_path_some in Hfp as [?|(j & Hjin & Hfind)]; [done|].
    destruct (find_path_links _ _ _ _ Hfind) as (Hl & _ & _); [done|].
    apply (IH _ _ Hc).
    + apply join_order_app_links with j; auto.
    + intros j' [Hold|Hnew]%tset_iter_foldl_add.
      * apply tset_iter_add in Hold as [->|Hold];
          [|by apply introduced_app_l, Hj].
        right. rewrite fmap_app, fmap_cons. apply elem_of_app. right.
        by left.
      * right. rewrite fmap_app, fmap_cons. apply elem_of_app. right.
        by right.
Qed.
End join_order_loop.

(** X9 (join order): in the joins of a successful query every step leaves
    the base table or a table that an earlier returned join enters, so
    each [JOIN] line of the SQL refers to a table that the [FROM] line or a
    line before it has brought in; this holds in whatever order the joined
    set is read. *)
Theorem generate_join_query_join_order `{TableSet} (conn : Catalog)
    (tables : list string) (select_all : bool) (r : JoinQuery) :
  generate_join_query conn tables select_all = Done r →
  gq_success r = true →
  ∃ base targets,
    tables = base :: targets
    ∧ ∀ before step after,
        gq_paths r = before ++ step :: after →
        s_from step = base
        ∨ ∃ earlier, earlier ∈ before ∧ s_to earlier = s_from step.
Proof.
  intros Hr Hs.
  destruct (generate_join_query_success conn tables select_all r Hr)
    as (base & targets & joined & all_paths & -> & Hc & ->); [by left|].
  exists base, targets. split; [done|]. simpl.
  assert (join_order base all_paths) as Ho.
  { apply (connect_targets_join_order _ _ _ _ _ _ _ Hc);
      [apply join_order_nil|].
    intros j Hj. rewrite tset_iter_singleton in Hj.
    apply list_elem_of_singleton in Hj. by left. }
  apply unique_joins_join_order in Ho.
  intros before step after Heq.
  destruct (Ho before step after Heq) as [?|Hin]; [by left|]. right.
  apply list_elem_of_fmap in Hin as (earlier & ? & ?). by exists earlier.
Qed.

Lemma generate_join_query_join_order_witness :
  ∃ r, generate_join_query shop_catalog
         ["customers"; "order_items"] false = Done r
       ∧ length (gq_paths r) = 2
       ∧ ∀ before step after,
           gq_paths r = before ++ step :: after →
           s_from step = "customers"
           ∨ ∃ earlier, earlier ∈ before ∧ s_to earlier = s_from step.
Proof.
  eexists. split; [vm_compute; reflexivity|]. split; [reflexivity|].
  match goal with
  | |- ∀ before step after, gq_paths ?r = _ → _ =>
      destruct (@generate_join_query_join_order insertion_ordered_set
                  shop_catalog ["customers"; "order_items"] false r)
        as (base & targets & Heq & Ho);
        [vm_compute; reflexivity|reflexivity|]
  end.
  injection Heq as <- _. exact Ho.
Defined.

(** ** Which requests succeed *)

Section connected_tables.
Variable adj : gmap string (list Edge).

Lemma connected_refl u : connected adj u u.
Proof. exists 0. apply walk_here. Qed.

Lemma connected_trans u v w :
  connected adj u v → connected adj v w → connected adj u w.
Proof. intros [k Hk] [m Hm]. exists (k + m). by eapply walk_app. Qed.

Lemma connected_sym u v :
  adjacency_symmetric adj → connected adj u v → connected adj v u.
Proof. intros Hsym [k Hk]. exists k. by apply walk_rev. Qed.
End connected_tables.

Section success.
Context `{TableSet}.
Variable graph : RelationshipGraph.
Hypothesis graph_closed : adjacency_closed (adjacency graph).
Hypothesis graph_symmetric : adjacency_symmetric (adjacency graph).

(** The scan of the joined tables finds a path as soon as one of them has
    one. *)
Lemma first_path_truthy target js path0 j :
  j ∈ js → j ≠ target → connected (adjacency graph) j target →
  ∃ step rest,
    first_path graph target js path0 = Done (Some (step :: rest)).
Proof.
  intros Hj Hne Hconn. revert path0.
  induction js as [|j' js IH]; intros path0; [by apply elem_of_nil in Hj|].
  simpl.
  destruct (find_path_returns graph j' target graph_closed) as [p Hp].
  rewrite Hp. simpl. destruct p as [[|s q]|]; simpl; [|by eauto|].
  - apply elem_of_cons in Hj as [->|Hj]; [|by apply IH].
    destruct (proj2 (find_path_nonempty_iff graph j' target graph_closed))
      as (? & ? & ?); [done|congruence].
  - apply elem_of_cons in Hj as [->|Hj]; [|by apply IH].
    destruct (proj2 (find_path_nonempty_iff graph j' target graph_closed))
      as (? & ? & ?); [done|congruence].
Qed.

(** A path the scan settles on connects a joined table to the target, and
    every table it enters to that joined table. *)
Lemma first_path_connects target js step rest :
  first_path graph target js None = Done (Some (step :: rest)) →
  ∃ j, j ∈ js ∧ j ≠ target
       ∧ connected (adjacency graph) j target
       ∧ target ∈ s_to <$> step :: rest
       ∧ ∀ x, x ∈ s_to <$> step :: rest → connected (adjacency graph) j x.
Proof.
  intros [?|(j & Hj & Hfind)]%first_path_some; [done|].
  exists j. split; [done|].
  destruct (proj1 (find_path_nonempty_iff graph j target graph_closed))
    as [Hne Hconn]; [by eauto|].
  split; [done|]. split; [done|].
  destruct (find_path_links _ _ _ _ Hfind) as (Hl & Hend & _); [done|].
  destruct (find_path_edges _ _ _ _ Hfind) as (Hg & _ & _).
  split.
  - rewrite <-Hend. unfold path_end.
    destruct (last (s_to <$> step :: rest)) as [x|] eqn:Hlast.
    + destruct (last_Some (s_to <$> step :: rest) x) as [[l' Hl'] _];
        [done|].
      rewrite Hl', last_last. rewrite <-Hl'.
      rewrite Hl'. apply elem_of_app. right. by left.
    + by apply last_None in Hlast.
  - intros x Hx. by eapply links_connected.
Qed.

(** The targets of a loop that ended well, and the tables joined by then,
    are connected to the base. *)
Lemma connect_targets_connected base targets joined acc joined' all_paths :
  connect_targets graph targets joined acc
    = Done (inr (joined', all_paths)) →
  (∀ j, j ∈ tset_iter joined → connected (adjacency graph) base j) →
  ∀ t, t ∈ targets → connected (adjacency graph) base t.
Proof.
  revert joined acc.
  induction targets as [|t targets IH]; intros joined acc; simpl.
  - intros _ _ t Ht. by apply elem_of_nil in Ht.
  - destruct (first_path graph t (tset_iter joined) None)
      as [[[|s p]|]| |] eqn:Hfp; simpl; try done.
    intros Hc Hj.
    destruct (first_path_connects _ _ _ _ Hfp)
      as (j & Hjin & _ & Hjt & _ & Hdests).
    intros t' [->|Ht']%elem_of_cons.
    + by eapply connected_trans; [apply Hj|].
    + apply (IH _ _ Hc); [|done].
      intros j' Hj'.
      change (foldl _ (tset_add (s_to s) joined) p)
        with (foldl (λ joined step, tset_add (s_to step) joined)
                joined (s :: p)) in Hj'.
      apply tset_iter_foldl_add in Hj' as [?|Hnew]; [by apply Hj|].
      eapply connected_trans; [by apply Hj|by apply Hdests].
Qed.

(** Once two different tables are joined, every target connected to the
    base gets a path. *)
Lemma connect_targets_succeeds base targets joined acc j1 j2 :
  j1 ∈ tset_iter joined → j2 ∈ tset_iter joined → j1 ≠ j2 →
  (∀ j, j ∈ tset_iter joined → connected (adjacency graph) base j) →
  (∀ t, t ∈ targets → connected (adjacency graph) base t) →
  ∃ joined' all_paths,
    connect_targets graph targets joined acc
    = Done (inr (joined', all_paths)).
Proof.
  revert joined acc.
  induction targets as [|t targets IH]; intros joined acc H1 H2 Hne Hj Ht;
    simpl; [by eauto|].
  assert (∃ j, j ∈ tset_iter joined ∧ j ≠ t) as (j & Hjin & Hjt).
  { destruct (decide (j1 = t)) as [->|]; [exists j2|exists j1]; auto. }
  assert (connected (adjacency graph) j t) as Hconn.
  { eapply connected_trans; [|apply Ht; by left].
    by apply connected_sym, Hj. }
  destruct (first_path_truthy t _ None j Hjin Hjt Hconn) as (s & p & Hfp).
  rewrite Hfp. simpl.
  destruct (first_path_connects _ _ _ _ Hfp)
    as (j' & Hj'in & _ & _ & _ & Hdests).
  assert (∀ x, x ∈ tset_iter joined →
            x ∈ tset_iter (foldl (λ joined step, tset_add (s_to step) joined)
                             (tset_add (s_to s) joined) p)) as Hsub.
  { intros x Hx.
    change (foldl _ (tset_add (s_to s) joined) p)
      with (foldl (λ joined step, tset_add (s_to step) joined)
              joined (s :: p)).
    apply tset_iter_foldl_add. by left. }
  apply IH; [by apply Hsub..|done| |].
  - intros x Hx.
    change (foldl _ (tset_add (s_to s) joined) p)
      with (foldl (λ joined step, tset_add (s_to step) joined)
              joined (s :: p)) in Hx.
    apply tset_iter_foldl_add in Hx as [?|Hnew]; [by apply Hj|].
    eapply connected_trans; [by apply Hj|by apply Hdests].
  - intros t' ?. apply Ht. by right.
Qed.
End success.

(** X10 (which requests succeed): on every catalog
    [generate_join_query] returns a result, and it reports success exactly
    when at least two tables are requested, the second differs from the
    first, and every requested table is connected to the first by a walk
    of the built graph.  So whether a request succeeds is the same in
    whatever order the joined set is read; which joins are returned, and
    the SQL with them, can differ with that order and are not fixed
    here. *)
Theorem generate_join_query_success_iff `{TableSet} (conn : Catalog)
    (tables : list string) (select_all : bool) :
  ∃ r, generate_join_query conn tables select_all = Done r
       ∧ (gq_success r = true ↔
          ∃ base second rest,
            tables = base :: second :: rest
            ∧ second ≠ base
            ∧ ∀ t, t ∈ second :: rest →
                   connected (adjacency (build_relationship_graph conn))
                     base t).
Proof.
  pose proof (build_graph_closed conn) as Hc.
  pose proof (build_graph_adjacency_symmetric conn) as Hsym.
  set (graph := build_relationship_graph conn) in *.
  destruct tables as [|base [|second rest]].
  - eexists. split; [done|]. simpl. split; [done|].
    by intros (? & ? & ? & ? & _).
  - eexists. split; [done|]. simpl. split; [done|].
    by intros (? & ? & ? & ? & _).
  - rewrite generate_join_query_two. fold graph.
    assert ((∃ base' second' rest',
               base :: second :: rest = base' :: second' :: rest'
               ∧ second' ≠ base'
               ∧ ∀ t, t ∈ second' :: rest' →
                      connected (adjacency graph) base' t)
            ↔ second ≠ base
              ∧ ∀ t, t ∈ second :: rest →
                     connected (adjacency graph) base t) as Hshape.
    { split.
      - by intros (? & ? & ? & [= <- <- <-] & ? & ?).
      - intros [? ?]. by exists base, second, rest. }
    destruct (connect_targets_returns graph (second :: rest)
                (tset_singleton base) [] Hc) as [res Hres].
    rewrite Hres. simpl.
    destruct res as [[t a]|[joined a]]; eexists; (split; [done|]); simpl;
      rewrite Hshape.
    + split; [done|]. intros [Hne Hall]. exfalso.
      (* the first target gets a path from the base, the others once the
         base and the first target are joined *)
      revert Hres. simpl. rewrite tset_iter_singleton.
      destruct (first_path_truthy graph Hc second [base] None base)
        as (s & p & Hfp);
        [by left|done|apply Hall; by left|].
      rewrite Hfp. simpl.
      destruct (first_path_connects graph Hc _ _ _ _ Hfp)
        as (j & Hj & _ & _ & Hsec & Hdests).
      apply list_elem_of_singleton in Hj as ->.
      destruct (connect_targets_succeeds graph Hc Hsym base rest
                  (foldl (λ joined step, tset_add (s_to step) joined)
                     (tset_singleton base) (s :: p))
                  ([] ++ s :: p) base second)
        as (joined' & all_paths & Hok).
      * apply tset_iter_foldl_add. left. rewrite tset_iter_singleton.
        by left.
      * apply tset_iter_foldl_add. by right.
      * done.
      * intros x [Hx|Hx]%tset_iter_foldl_add; [|by apply Hdests].
        rewrite tset_iter_singleton in Hx.
        apply list_elem_of_singleton in Hx as ->. apply connected_refl.
      * intros t' ?. apply Hall. by right.
      * simpl in Hok. rewrite Hok. done.
    + split; [intros _|done].
      assert (∀ j, j ∈ tset_iter (tset_singleton base) →
                connected (adjacency graph) base j) as Hj.
      { intros j Hj. rewrite tset_iter_singleton in Hj.
        apply list_elem_of_singleton in Hj as ->. apply connected_refl. }
      split; [|by eapply (connect_targets_connected graph Hc)].
      revert Hres. simpl. rewrite tset_iter_singleton.
      destruct (first_path graph second [base] None)
        as [[[|s p]|]| |] eqn:Hfp; simpl; try done.
      intros _.
      destruct (first_path_connects graph Hc _ _ _ _ Hfp)
        as (j & Hjin & Hne & _).
      apply list_elem_of_singleton in Hjin as ->. done.
Qed.

(** ** The Markdown report *)

Section report.
Implicit Types (fks : list ForeignKey) (fk : ForeignKey).

Lemma dd_get_lookup {V} k (d : list (string * list V)) :
  dd_get k d = default [] ((list_to_map d : gmap string (list V)) !! k).
Proof.
  induction d as [|[k' vs] d IH]; simpl; [by rewrite lookup_empty|].
  destruct (decide (k' = k)) as [->|Hne].
  - by rewrite lookup_insert_eq.
  - by rewrite lookup_insert_ne.
Qed.

Lemma group_by_table_lookup fks t :
  (list_to_map (group_by_table fks) : gmap string (list ForeignKey)) !! t
  = group_of (owned t fks).
Proof.
  destruct (foldl_group_spec fks [] []) as [_ Hl];
    [apply NoDup_nil_2|by intros; simpl; rewrite lookup_empty|apply Hl].
Qed.

Lemma dd_get_group_by_table fks t :
  dd_get t (group_by_table fks) = owned t fks.
Proof.
  rewrite dd_get_lookup, group_by_table_lookup. by destruct (owned t fks).
Qed.

Lemma elem_of_group_keys fks t :
  t ∈ (group_by_table fks).*1 ↔ ∃ fk, fk ∈ fks ∧ fk_from_table fk = t.
Proof.
  rewrite list_elem_of_fmap. split.
  - intros ([t' l] & -> & [-> Hne]%group_by_table_spec). simpl.
    destruct (owned t' fks) as [|fk l] eqn:Ho; [done|].
    assert (fk ∈ owned t' fks) as Hin by (rewrite Ho; by left).
    apply list_elem_of_filter in Hin as [? ?]. by exists fk.
  - intros (fk & Hin & <-).
    exists (fk_from_table fk, owned (fk_from_table fk) fks). split; [done|].
    apply group_by_table_spec. split; [done|].
    assert (fk ∈ owned (fk_from_table fk) fks) as Hfk
      by by apply list_elem_of_filter.
    intros Hnil. rewrite Hnil in Hfk. by apply elem_of_nil in Hfk.
Qed.

(** Listing, table by table, what each of a set of distinct tables owns
    lists every foreign key of those tables once. *)
Lemma owned_by_tables_Permutation fks (ts : list string) :
  NoDup ts → (∀ fk, fk ∈ fks → fk_from_table fk ∈ ts) →
  ts ≫= (λ t, owned t fks) ≡ₚ fks.
Proof.
  intros Hnd. induction fks as [|fk fks IH]; intros Hall.
  - clear. induction ts as [|t ts IHts]; [done|].
    rewrite bind_cons. simpl. apply IHts.
  - assert (fk_from_table fk ∈ ts) as Hin by (apply Hall; by left).
    apply list_elem_of_split in Hin as (l1 & l2 & ->).
    apply NoDup_app in Hnd as (Hnd1 & Hdisj & [Hn2 Hnd2]%NoDup_cons).
    assert (∀ l : list string, fk_from_table fk ∉ l →
              l ≫= (λ t, owned t (fk :: fks)) = l ≫= (λ t, owned t fks))
      as Hskip.
    { intros l Hl. induction l as [|t l IHl]; [done|].
      rewrite !bind_cons, IHl by set_solver.
      unfold owned at 1. rewrite filter_cons_False; [done|]. set_solver. }
    specialize (IH ltac:(intros fk' ?; apply Hall; by right)).
    rewrite bind_app, bind_cons in IH |- *.
    rewrite !Hskip by set_solver.
    unfold owned at 2. rewrite filter_cons_True by done.
    fold (owned (fk_from_table fk) fks).
    rewrite <-IH at 2. simpl. symmetry. apply Permutation_middle.
Qed.
End report.

(** X11 (Markdown report): for any format but [json] and a non-empty list
    of foreign keys, the report is the title and the counted heading, then
    one block per table that owns a foreign key, the tables in ascending
    order and each once, with the bullets of the foreign keys the table
    owns in list order, then the many-to-many part; block by block, every
    foreign key of the list gets one bullet. *)
Theorem format_relationships_output_markdown
    (json_dumps : list ForeignKey → list JunctionCandidate → string)
    (foreign_keys : list ForeignKey) (many_to_many : list JunctionCandidate)
    (format_type : string) :
  format_type ≠ "json" →
  foreign_keys ≠ [] →
  ∃ tables,
    Sorted (λ a b, String.leb a b = true) tables
    ∧ NoDup tables
    ∧ (∀ t, t ∈ tables ↔
            ∃ fk, fk ∈ foreign_keys ∧ fk_from_table fk = t)
    ∧ tables ≫= (λ t, filter (λ fk, fk_from_table fk = t) foreign_keys)
      ≡ₚ foreign_keys
    ∧ format_relationships_output json_dumps foreign_keys many_to_many
        format_type =
      str_join nl
        (["# Database Relationships"; "";
          "## Foreign Keys (" +:+ pretty (length foreign_keys) +:+ ")"; ""]
         ++ (tables ≫= (λ t,
               (("### " +:+ t) ::
                (fk_line <$> filter (λ fk, fk_from_table fk = t)
                               foreign_keys))
               ++ [""]))
         ++ ["## Many-to-Many Relationships (" +:+
             pretty (length many_to_many) +:+ ")"; ""]
         ++ m2m_lines many_to_many).
Proof.
  intros Hfmt Hne.
  set (tables := merge_sort str_le (group_by_table foreign_keys).*1).
  assert (∀ t, t ∈ tables ↔
            ∃ fk, fk ∈ foreign_keys ∧ fk_from_table fk = t) as Hmem.
  { intros t. unfold tables.
    rewrite merge_sort_Permutation. apply elem_of_group_keys. }
  assert (NoDup tables) as Hnd.
  { unfold tables. rewrite merge_sort_Permutation.
    apply group_by_table_NoDup. }
  exists tables. split; [apply (Sorted_merge_sort str_le)|].
  split; [done|]. split; [done|]. split.
  - apply owned_by_tables_Permutation; [done|].
    intros fk Hin. apply Hmem. by exists fk.
  - unfold format_relationships_output. rewrite decide_False by done.
    do 3 f_equal. unfold fk_lines.
    destruct foreign_keys as [|fk0 fks]; [done|]. fold tables.
    apply list_bind_ext; [|done]. intros t.
    by rewrite dd_get_group_by_table.
Qed.

Lemma format_relationships_output_markdown_witness :
  ∃ tables,
    NoDup tables
    ∧ (∀ t, t ∈ tables ↔
            ∃ fk, fk ∈ get_foreign_keys shop_catalog ∧ fk_from_table fk = t)
    ∧ tables ≫= (λ t, filter (λ fk, fk_from_table fk = t)
                        (get_foreign_keys shop_catalog))
      ≡ₚ get_foreign_keys shop_catalog.
Proof.
  destruct (format_relationships_output_markdown (λ _ _, "")
              (get_foreign_keys shop_catalog) [] "markdown")
    as (tables & _ & Hnd & Hmem & Hperm & _); [discriminate..|].
  by exists tables.
Defined.
